(** * WeatherProxy: the Netlify function [netlify/functions/weather.js]

    A shallow embedding of [exports.handler] and of the ECMAScript
    built-ins it calls, followed by the properties of the handler.

    Representation choices.
    - A JavaScript string is represented by the bytes of its UTF-8
      encoding (a Rocq [string]); strings holding a lone surrogate are
      not represented.
    - A JavaScript number is represented by its decimal expansion: a
      sign, the significant digits and the position of the point.  The
      numbers of the model have at most 15 significant digits and a
      magnitude in the range of the normal doubles; on these the
      expansion is the one [Number::toString] prints.  The negative
      zero is identified with zero, as [===] does; numbers that need
      more digits and the infinities are not represented.
    - A JavaScript object is represented by the list of its own
      enumerable properties, in property enumeration order. *)

From Stdlib Require Import ZArith String Ascii List Bool Lia.
From Stdlib Require Import Decimal DecimalString DecimalN DecimalPos.
From stdpp Require Import base gmap strings list.
Import ListNotations.

Open Scope string_scope.
Open Scope list_scope.
Open Scope Z_scope.

(** ** ECMAScript built-ins *)

Module JS.

(** *** Strings *)

Definition bytes (s : string) : list ascii := list_ascii_of_string s.
Definition of_bytes (l : list ascii) : string := string_of_list_ascii l.

Definition byte (n : N) : ascii := ascii_of_N n.

(** The code points that [String.prototype.trim] strips (WhiteSpace and
    LineTerminator of the ECMAScript grammar), each as the bytes of its
    UTF-8 encoding. *)
Definition WhiteSpace : list (list ascii) :=
  map (map byte)
    [ [0x09]; [0x0A]; [0x0B]; [0x0C]; [0x0D]; [0x20];   (* TAB LF VT FF CR SP *)
      [0xC2; 0xA0];                                     (* U+00A0 *)
      [0xE1; 0x9A; 0x80];                               (* U+1680 *)
      [0xE2; 0x80; 0x80]; [0xE2; 0x80; 0x81]; [0xE2; 0x80; 0x82];
      [0xE2; 0x80; 0x83]; [0xE2; 0x80; 0x84]; [0xE2; 0x80; 0x85];
      [0xE2; 0x80; 0x86]; [0xE2; 0x80; 0x87]; [0xE2; 0x80; 0x88];
      [0xE2; 0x80; 0x89]; [0xE2; 0x80; 0x8A];           (* U+2000..U+200A *)
      [0xE2; 0x80; 0xA8]; [0xE2; 0x80; 0xA9];           (* U+2028 U+2029 *)
      [0xE2; 0x80; 0xAF];                               (* U+202F *)
      [0xE2; 0x81; 0x9F];                               (* U+205F *)
      [0xE3; 0x80; 0x80];                               (* U+3000 *)
      [0xEF; 0xBB; 0xBF] ]%N.                           (* U+FEFF *)

Fixpoint starts_with (p l : list ascii) : bool :=
  match p, l with
  | [], _ => true
  | a :: p', b :: l' => Ascii.eqb a b && starts_with p' l'
  | _ :: _, [] => false
  end.

(** Removes the members of [pats] from the front of [l], as long as one
    is there.  Every pattern is non-empty, so [length l] steps are enough. *)
Fixpoint strip (pats : list (list ascii)) (fuel : nat) (l : list ascii)
  : list ascii :=
  match fuel with
  | O => l
  | S fuel' =>
      match List.find (fun p => starts_with p l) pats with
      | Some p => strip pats fuel' (skipn (length p) l)
      | None => l
      end
  end.

Definition trimStart_bytes (l : list ascii) : list ascii :=
  strip WhiteSpace (length l) l.

Definition trimEnd_bytes (l : list ascii) : list ascii :=
  rev (strip (map (@rev ascii) WhiteSpace) (length l) (rev l)).

(** [String.prototype.trim] *)
Definition trim (s : string) : string :=
  of_bytes (trimEnd_bytes (trimStart_bytes (bytes s))).

(** A string made of white space code points only. *)
Definition whitespace_only (s : string) : Prop :=
  exists ps, Forall (fun p => In p WhiteSpace) ps /\ bytes s = concat ps.

Definition list_ascii_eqb (p q : list ascii) : bool :=
  starts_with p q && starts_with q p.

(** *** encodeURIComponent *)

Definition in_range (lo hi : N) (c : ascii) : bool :=
  (lo <=? N_of_ascii c)%N && (N_of_ascii c <=? hi)%N.

(** uriUnescaped of [encodeURIComponent]: the ASCII letters, the decimal
    digits and the marks [- _ . ! ~ * ' ( )]. *)
Definition uriUnreserved (c : ascii) : bool :=
  in_range 0x41 0x5A c || in_range 0x61 0x7A c || in_range 0x30 0x39 c
  || existsb (Ascii.eqb c)
       ["-"; "_"; "."; "!"; "~"; "*"; "'"; "("; ")"]%char.

Definition hex_digit_upper (n : N) : ascii :=
  if (n <? 10)%N then ascii_of_N (0x30 + n) else ascii_of_N (0x41 + (n - 10)).

Definition percent_encode (c : ascii) : list ascii :=
  [ "%"%char; hex_digit_upper (N_of_ascii c / 16);
    hex_digit_upper (N_of_ascii c mod 16) ].

Definition encode_byte (c : ascii) : list ascii :=
  if uriUnreserved c then [c] else percent_encode c.

(** Every octet of the UTF-8 encoding that is not unreserved becomes
    [%XX] with upper-case hexadecimal digits. *)
Definition encodeURIComponent (s : string) : string :=
  of_bytes (flat_map encode_byte (bytes s)).

(** *** Completion records *)

(** An abrupt completion carries the [message] of the error thrown, the
    only part of it the handler reads. *)
Inductive completion (A : Type) : Type :=
| Normal (a : A)
| Throw (message : string).
Arguments Normal {A} a.
Arguments Throw {A} message.

#[global] Instance completion_ret : MRet completion := fun A a => Normal a.

#[global] Instance completion_bind : MBind completion :=
  fun A B k c =>
    match c with
    | Normal a => k a
    | Throw m => Throw m
    end.

(** *** Numbers *)

(** A number is zero or, up to its sign, [0.d1...dk * 10^point] with
    [d1] and [dk] not zero: [digits] holds the characters [d1 ... dk],
    and is empty for zero. *)
Record number : Type := {
  negative : bool;
  digits : list ascii;
  point : Z
}.

Definition zero : number := {| negative := false; digits := []; point := 0 |}.

Definition is_digit (c : ascii) : bool := in_range 0x30 0x39 c.
Definition is_zero (c : ascii) : bool := Ascii.eqb c "0".

Fixpoint drop_zeros (l : list ascii) : list ascii :=
  match l with
  | c :: l' => if is_zero c then drop_zeros l' else l
  | [] => []
  end.

(** The number with the decimal digits [ds], the decimal point after
    the first [p] of them. *)
Definition normal (neg : bool) (ds : list ascii) (p : Z) : number :=
  let significant := drop_zeros ds in
  match rev (drop_zeros (rev significant)) with
  | [] => zero
  | d :: ds' =>
      {| negative := neg;
         digits := d :: ds';
         point := p - Z.of_nat (length ds - length significant) |}
  end.

(** The numbers of the model: at most 15 significant digits and a
    magnitude in the range of the normal doubles, so that the double
    it stands for has this decimal expansion as its shortest one. *)
Definition represented (x : number) : bool :=
  (length (digits x) <=? 15)%nat
  && match digits x with
     | [] => true
     | _ :: _ => (-306 <=? point x) && (point x <=? 308)
     end.

Definition well_formed (x : number) : bool :=
  match digits x with
  | [] => negb (negative x) && (point x =? 0)
  | d :: ds =>
      forallb is_digit (d :: ds) && negb (is_zero d)
      && negb (is_zero (List.last ds d))
  end.

Definition numeral (n : N) : list ascii :=
  bytes (NilZero.string_of_uint (N.to_uint n)).

(** The decimal numeral of a number that is not zero, without its sign:
    steps 6 to 10 of [Number::toString], where [k] is the number of
    digits and [n] the position of the point. *)
Definition magnitude (ds : list ascii) (n : Z) : list ascii :=
  let k := Z.of_nat (length ds) in
  if (k <=? n) && (n <=? 21) then
    ds ++ repeat "0"%char (Z.to_nat (n - k))
  else if (0 <? n) && (n <=? 21) then
    firstn (Z.to_nat n) ds ++ "."%char :: skipn (Z.to_nat n) ds
  else if (-6 <? n) && (n <=? 0) then
    "0"%char :: "."%char :: repeat "0"%char (Z.to_nat (- n)) ++ ds
  else
    let exponent :=
      "e"%char :: (if n - 1 <? 0 then "-"%char else "+"%char)
      :: numeral (Z.to_N (Z.abs (n - 1))) in
    match ds with
    | [] => []
    | [d] => d :: exponent
    | d :: ds' => d :: "."%char :: ds' ++ exponent
    end.

(** [Number::toString(x)], radix 10. *)
Definition Number_toString (x : number) : string :=
  of_bytes
    match digits x with
    | [] => ["0"%char]
    | _ :: _ =>
        if negative x then "-"%char :: magnitude (digits x) (point x)
        else magnitude (digits x) (point x)
    end.

(** The number an integer is. *)
Definition integer (z : Z) : number :=
  let ds := numeral (Z.to_N (Z.abs z)) in
  normal (z <? 0) ds (Z.of_nat (length ds)).

(** *** Values produced by JSON.parse *)

Unset Elimination Schemes.
Inductive value : Type :=
| JNull
| JBool (b : bool)
| JNumber (n : number)
| JString (s : string)
| JArray (elements : list value)
| JObject (properties : list (string * value)).
Set Elimination Schemes.

(** Induction on values, with the hypothesis on every element of an
    array and on every property value of an object. *)
Section value_induction.

Variable P : value -> Prop.
Hypothesis Hnull : P JNull.
Hypothesis Hbool : forall b, P (JBool b).
Hypothesis Hnumber : forall n, P (JNumber n).
Hypothesis Hstring : forall s, P (JString s).
Hypothesis Harray : forall l, Forall P l -> P (JArray l).
Hypothesis Hobject : forall ps, Forall (fun kv => P (snd kv)) ps -> P (JObject ps).

Fixpoint value_ind (v : value) : P v :=
  match v with
  | JNull => Hnull
  | JBool b => Hbool b
  | JNumber n => Hnumber n
  | JString s => Hstring s
  | JArray l =>
      Harray l
        ((fix all (l : list value) : Forall P l :=
            match l with
            | [] => @List.Forall_nil _ P
            | x :: l' => @List.Forall_cons _ P x l' (value_ind x) (all l')
            end) l)
  | JObject ps =>
      Hobject ps
        ((fix all (ps : list (string * value)) : Forall (fun kv => P (snd kv)) ps :=
            match ps with
            | [] => @List.Forall_nil _ _
            | kv :: ps' =>
                @List.Forall_cons _ (fun kv => P (snd kv)) kv ps'
                  (value_ind (snd kv)) (all ps')
            end) ps)
  end.

End value_induction.

(** The own property [key] of an object, [None] for [undefined]. *)
Fixpoint own_property (ps : list (string * value)) (key : string)
  : option value :=
  match ps with
  | [] => None
  | (k, v) :: ps' => if String.eqb k key then Some v else own_property ps' key
  end.

(** [base?.key], for a [key] that is neither an array index, ["length"]
    nor a member of a built-in prototype ([error], [code] and [message]
    are such keys): only an object that owns the property has it. *)
Definition optional_get (base : option value) (key : string) : option value :=
  match base with
  | Some (JObject ps) => own_property ps key
  | _ => None
  end.

(** [x ?? d]: [d] replaces [undefined] and [null]. *)
Definition nullish_or (x : option value) (d : value) : value :=
  match x with
  | None | Some JNull => d
  | Some v => v
  end.

Fixpoint join (sep : string) (l : list string) : string :=
  match l with
  | [] => ""
  | [s] => s
  | s :: l' => s +:+ sep +:+ join sep l'
  end.

Fixpoint sequence {A} (l : list (completion A)) : completion (list A) :=
  match l with
  | [] => Normal []
  | c :: l' => a ← c; r ← sequence l'; Normal (a :: r)
  end.

Definition TypeError_primitive : string :=
  "Cannot convert object to primitive value".

(** [ToString] (and [ToPropertyKey], which agrees with it on these
    values).  An array goes through [Array.prototype.join]; an object
    goes through [OrdinaryToPrimitive]: an own [toString] property hides
    [Object.prototype.toString] and, holding data, is not callable, and
    [valueOf] returns the object itself, so the conversion throws. *)
Fixpoint ToString (v : value) : completion string :=
  match v with
  | JNull => Normal "null"
  | JBool b => Normal (if b then "true" else "false")
  | JNumber n => Normal (Number_toString n)
  | JString s => Normal s
  | JArray l =>
      parts ← sequence
                (map (fun e => match e with
                               | JNull => Normal ""
                               | _ => ToString e
                               end) l);
      Normal (join "," parts)
  | JObject ps =>
      match own_property ps "toString" with
      | Some _ => Throw TypeError_primitive
      | None => Normal "[object Object]"
      end
  end.

Definition ToPropertyKey (v : value) : completion string := ToString v.

(** *** JSON.stringify *)

Definition hex_digit_lower (n : N) : ascii :=
  if (n <? 10)%N then ascii_of_N (0x30 + n) else ascii_of_N (0x61 + (n - 10)).

(** QuoteJSONString, one code unit at a time: the two-character
    escapes, [\u00xx] for the other control characters, and every
    other byte as it is. *)
Definition quote_char (c : ascii) : list ascii :=
  let n := N_of_ascii c in
  if (n =? 0x08)%N then ["\"; "b"]%char
  else if (n =? 0x09)%N then ["\"; "t"]%char
  else if (n =? 0x0A)%N then ["\"; "n"]%char
  else if (n =? 0x0C)%N then ["\"; "f"]%char
  else if (n =? 0x0D)%N then ["\"; "r"]%char
  else if (n =? 0x22)%N then ["\"; "034"]%char
  else if (n =? 0x5C)%N then ["\"; "\"]%char
  else if (n <? 0x20)%N then
    ["\"; "u"; "0"; "0"; hex_digit_lower (n / 16); hex_digit_lower (n mod 16)]%char
  else [c].

Definition QuoteJSONString (s : string) : string :=
  of_bytes ("034" :: flat_map quote_char (bytes s) ++ ["034"])%char.

(** [JSON.stringify(v)] with no replacer and no indentation. *)
Fixpoint JSON_stringify (v : value) : string :=
  match v with
  | JNull => "null"
  | JBool b => if b then "true" else "false"
  | JNumber n => Number_toString n
  | JString s => QuoteJSONString s
  | JArray l => "[" +:+ join "," (map JSON_stringify l) +:+ "]"
  | JObject ps =>
      "{" +:+ join "," (map (fun kv => QuoteJSONString (fst kv) +:+ ":"
                                       +:+ JSON_stringify (snd kv)) ps)
      +:+ "}"
  end.

(** *** JSON.parse *)

(** The parser of the JSON grammar.  The result is [None] when the text
    is not JSON, and also when it holds a number that is not
    represented or the escape of a lone surrogate. *)

Definition is_json_ws (c : ascii) : bool :=
  existsb (Ascii.eqb c) ["009"; "010"; "013"; " "]%char.   (* TAB LF CR SP *)

Fixpoint skip_ws (l : list ascii) : list ascii :=
  match l with
  | c :: l' => if is_json_ws c then skip_ws l' else l
  | [] => []
  end.

(** The rest of [l] after the literal [lit]. *)
Definition expect (lit : string) (l : list ascii) : option (list ascii) :=
  if starts_with (bytes lit) l then Some (skipn (String.length lit) l) else None.

Definition hex_value (c : ascii) : option N :=
  let n := N_of_ascii c in
  if in_range 0x30 0x39 c then Some (n - 0x30)%N
  else if in_range 0x41 0x46 c then Some (n - 0x41 + 10)%N
  else if in_range 0x61 0x66 c then Some (n - 0x61 + 10)%N
  else None.

Definition hex4 (a b c d : ascii) : option N :=
  x ← hex_value a; y ← hex_value b; z ← hex_value c; w ← hex_value d;
  Some (((x * 16 + y) * 16 + z) * 16 + w)%N.

(** The UTF-8 encoding of a code point. *)
Definition utf8 (cp : N) : list ascii :=
  map byte
    (if cp <? 0x80 then [cp]
     else if cp <? 0x800 then [0xC0 + cp / 64; 0x80 + cp mod 64]
     else if cp <? 0x10000 then
       [0xE0 + cp / 4096; 0x80 + (cp / 64) mod 64; 0x80 + cp mod 64]
     else
       [0xF0 + cp / 262144; 0x80 + (cp / 4096) mod 64;
        0x80 + (cp / 64) mod 64; 0x80 + cp mod 64])%N.

Definition simple_escape (c : ascii) : option ascii :=
  if Ascii.eqb c "034" then Some "034"%char
  else if Ascii.eqb c "\" then Some "\"%char
  else if Ascii.eqb c "/" then Some "/"%char
  else if Ascii.eqb c "b" then Some (byte 0x08)
  else if Ascii.eqb c "f" then Some (byte 0x0C)
  else if Ascii.eqb c "n" then Some (byte 0x0A)
  else if Ascii.eqb c "r" then Some (byte 0x0D)
  else if Ascii.eqb c "t" then Some (byte 0x09)
  else None.

(** The characters of a string literal after its opening quote, up to
    the closing quote. *)
Fixpoint parse_chars (l : list ascii) : option (list ascii * list ascii) :=
  match l with
  | [] => None
  | c :: l1 =>
      if Ascii.eqb c "034" then Some ([], l1)
      else if Ascii.eqb c "\" then
        match l1 with
        | [] => None
        | e :: l2 =>
            match simple_escape e with
            | Some b => '(s, r) ← parse_chars l2; Some (b :: s, r)
            | None =>
                if Ascii.eqb e "u" then
                  match l2 with
                  | h1 :: h2 :: h3 :: h4 :: l3 =>
                      cu ← hex4 h1 h2 h3 h4;
                      if ((cu <? 0xD800) || (0xDFFF <? cu))%N then
                        '(s, r) ← parse_chars l3; Some (utf8 cu ++ s, r)
                      else if (cu <? 0xDC00)%N then
                        (* a high surrogate: a low one must follow *)
                        match l3 with
                        | b1 :: b2 :: g1 :: g2 :: g3 :: g4 :: l4 =>
                            if Ascii.eqb b1 "\" && Ascii.eqb b2 "u" then
                              lo ← hex4 g1 g2 g3 g4;
                              if ((0xDC00 <=? lo) && (lo <=? 0xDFFF))%N then
                                '(s, r) ← parse_chars l4;
                                Some (utf8 (0x10000 + (cu - 0xD800) * 1024
                                            + (lo - 0xDC00))%N ++ s, r)
                              else None
                            else None
                        | _ => None
                        end
                      else None
                  | _ => None
                  end
                else None
            end
        end
      else if (N_of_ascii c <? 0x20)%N then None
      else '(s, r) ← parse_chars l1; Some (c :: s, r)
  end.

Definition digit_of (c : ascii) : option (uint -> uint) :=
  if Ascii.eqb c "0" then Some D0
  else if Ascii.eqb c "1" then Some D1
  else if Ascii.eqb c "2" then Some D2
  else if Ascii.eqb c "3" then Some D3
  else if Ascii.eqb c "4" then Some D4
  else if Ascii.eqb c "5" then Some D5
  else if Ascii.eqb c "6" then Some D6
  else if Ascii.eqb c "7" then Some D7
  else if Ascii.eqb c "8" then Some D8
  else if Ascii.eqb c "9" then Some D9
  else None.

Fixpoint parse_digits (l : list ascii) : uint * list ascii :=
  match l with
  | [] => (Nil, [])
  | c :: l' =>
      match digit_of c with
      | Some d => let (u, r) := parse_digits l' in (d u, r)
      | None => (Nil, l)
      end
  end.

(** The longest run of digits at the front of [l], and what follows. *)
Fixpoint span_digits (l : list ascii) : list ascii * list ascii :=
  match l with
  | [] => ([], [])
  | c :: l' =>
      if is_digit c then let (ds, r) := span_digits l' in (c :: ds, r)
      else ([], l)
  end.

(** An optional fraction: a point and at least one digit. *)
Definition parse_fraction (l : list ascii) : option (list ascii * list ascii) :=
  match l with
  | c :: l' =>
      if Ascii.eqb c "." then
        match span_digits l' with
        | ([], _) => None
        | (ds, r) => Some (ds, r)
        end
      else Some ([], l)
  | [] => Some ([], [])
  end.

(** An optional exponent: [e] or [E], an optional sign and at least
    one digit. *)
Definition parse_exponent (l : list ascii) : option (Z * list ascii) :=
  match l with
  | c :: l' =>
      if Ascii.eqb c "e" || Ascii.eqb c "E" then
        let (minus, l'') :=
          match l' with
          | s :: t =>
              if Ascii.eqb s "-" then (true, t)
              else if Ascii.eqb s "+" then (false, t)
              else (false, l')
          | [] => (false, [])
          end in
        match parse_digits l'' with
        | (Nil, _) => None
        | (u, r) => Some (if minus then - Z.of_uint u else Z.of_uint u, r)
        end
      else Some (0, l)
  | [] => Some (0, [])
  end.

(** A JSON number after its sign: an integer part with no leading
    zero, an optional fraction and an optional exponent.  The result is
    [None] also when the number is not represented. *)
Definition parse_magnitude (minus : bool) (l : list ascii)
  : option (number * list ascii) :=
  match span_digits l with
  | ([], _) => None
  | (d :: int, l2) =>
      if is_zero d && negb (match int with [] => true | _ :: _ => false end)
      then None
      else
        '(frac, l3) ← parse_fraction l2;
        '(e, l4) ← parse_exponent l3;
        let x := normal minus ((d :: int) ++ frac)
                   (Z.of_nat (length (d :: int)) + e) in
        if represented x then Some (x, l4) else None
  end.

Definition parse_number (l : list ascii) : option (number * list ascii) :=
  match l with
  | c :: l' =>
      if Ascii.eqb c "-" then parse_magnitude true l' else parse_magnitude false l
  | [] => None
  end.

(** The number a numeral denotes, zero when [text] is not a numeral of
    a represented number. *)
Definition decimal (text : string) : number :=
  match parse_number (bytes text) with
  | Some (x, []) => x
  | _ => zero
  end.

(** An array index: the canonical numeral of an integer below 2^32 - 1. *)
Definition array_index (k : string) : option N :=
  match parse_digits (bytes k) with
  | (Nil, _) => None
  | (u, []) =>
      if uint_beq (unorm u) u && (N.of_uint u <? 4294967295)%N
      then Some (N.of_uint u) else None
  | (_, _ :: _) => None
  end.

Fixpoint has_key (k : string) (ps : list (string * value)) : bool :=
  match ps with
  | [] => false
  | (k', _) :: ps' => String.eqb k' k || has_key k ps'
  end.

Fixpoint replace_value (k : string) (v : value) (ps : list (string * value))
  : list (string * value) :=
  match ps with
  | [] => []
  | (k', v') :: ps' =>
      if String.eqb k' k then (k', v) :: ps'
      else (k', v') :: replace_value k v ps'
  end.

Fixpoint insert_index (i : N) (k : string) (v : value)
  (ps : list (string * value)) : list (string * value) :=
  match ps with
  | [] => [(k, v)]
  | (k', v') :: ps' =>
      match array_index k' with
      | Some j =>
          if (j <? i)%N then (k', v') :: insert_index i k v ps'
          else (k, v) :: ps
      | None => (k, v) :: ps
      end
  end.

(** CreateDataProperty on a property list kept in enumeration order:
    array indices first, ascending, then the other keys in the order of
    their creation; an existing key keeps its place. *)
Definition define_property (ps : list (string * value)) (kv : string * value)
  : list (string * value) :=
  let (k, v) := kv in
  if has_key k ps then replace_value k v ps
  else match array_index k with
       | Some i => insert_index i k v ps
       | None => ps ++ [(k, v)]
       end.

Definition build_object (members : list (string * value))
  : list (string * value) :=
  fold_left define_property members [].

Fixpoint parse_value (fuel : nat) (l : list ascii)
  : option (value * list ascii) :=
  match fuel with
  | O => None
  | S fuel' =>
      match skip_ws l with
      | [] => None
      | c :: r =>
          if Ascii.eqb c "n" then r' ← expect "ull" r; Some (JNull, r')
          else if Ascii.eqb c "t" then r' ← expect "rue" r; Some (JBool true, r')
          else if Ascii.eqb c "f" then r' ← expect "alse" r; Some (JBool false, r')
          else if Ascii.eqb c "034" then
            '(s, r') ← parse_chars r; Some (JString (of_bytes s), r')
          else if Ascii.eqb c "[" then
            match skip_ws r with
            | c' :: r' =>
                if Ascii.eqb c' "]" then Some (JArray [], r')
                else '(vs, r'') ← parse_elements fuel' r; Some (JArray vs, r'')
            | [] => None
            end
          else if Ascii.eqb c "{" then
            match skip_ws r with
            | c' :: r' =>
                if Ascii.eqb c' "}" then Some (JObject [], r')
                else '(ms, r'') ← parse_members fuel' r;
                     Some (JObject (build_object ms), r'')
            | [] => None
            end
          else '(n, r') ← parse_number (c :: r); Some (JNumber n, r')
      end
  end
with parse_elements (fuel : nat) (l : list ascii)
  : option (list value * list ascii) :=
  match fuel with
  | O => None
  | S fuel' =>
      '(v, r) ← parse_value fuel' l;
      match skip_ws r with
      | c :: r' =>
          if Ascii.eqb c "," then
            '(vs, r'') ← parse_elements fuel' r'; Some (v :: vs, r'')
          else if Ascii.eqb c "]" then Some ([v], r')
          else None
      | [] => None
      end
  end
with parse_members (fuel : nat) (l : list ascii)
  : option (list (string * value) * list ascii) :=
  match fuel with
  | O => None
  | S fuel' =>
      match skip_ws l with
      | c :: r =>
          if Ascii.eqb c "034" then
            '(k, r1) ← parse_chars r;
            match skip_ws r1 with
            | c1 :: r2 =>
                if Ascii.eqb c1 ":" then
                  '(v, r3) ← parse_value fuel' r2;
                  match skip_ws r3 with
                  | c3 :: r4 =>
                      if Ascii.eqb c3 "," then
                        '(ms, r5) ← parse_members fuel' r4;
                        Some ((of_bytes k, v) :: ms, r5)
                      else if Ascii.eqb c3 "}" then Some ([(of_bytes k, v)], r4)
                      else None
                  | [] => None
                  end
                else None
            | [] => None
            end
          else None
      | [] => None
      end
  end.

(** [JSON.parse(text)], no reviver. *)
Definition JSON_parse (text : string) : option value :=
  '(v, r) ← parse_value (S (String.length text)) (bytes text);
  match skip_ws r with
  | [] => Some v
  | _ :: _ => None
  end.

(** *** Values in the image of JSON.parse *)

(** [k] is enumerated before [k']: they differ, and either both are
    array indices, [k] the smaller, or [k'] is not an array index. *)
Definition before (k k' : string) : bool :=
  negb (String.eqb k k')
  && match array_index k, array_index k' with
     | Some i, Some j => (i <? j)%N
     | _, None => true
     | None, Some _ => false
     end.

(** The keys of an object in enumeration order: every key is before
    the keys that follow it. *)
Fixpoint ordered_keys (ks : list string) : bool :=
  match ks with
  | [] => true
  | k :: ks' => forallb (before k) ks' && ordered_keys ks'
  end.

(** The values that [JSON.parse] returns: numbers are in normal form
    and represented, and the properties of every object are in
    enumeration order. *)
Fixpoint canonical (v : value) : bool :=
  match v with
  | JNull | JBool _ | JString _ => true
  | JNumber n => well_formed n && represented n
  | JArray l => forallb canonical l
  | JObject ps =>
      ordered_keys (map fst ps) && forallb (fun kv => canonical (snd kv)) ps
  end.

(** The bytes of [JSON_stringify v], and the fuel [parse_value] needs
    to read them back. *)
Definition quote_bytes (s : string) : list ascii :=
  ("034" :: flat_map quote_char (bytes s) ++ ["034"])%char.

Fixpoint separated (parts : list (list ascii)) : list ascii :=
  match parts with
  | [] => []
  | [p] => p
  | p :: parts' => p ++ ","%char :: separated parts'
  end.

Fixpoint emit (v : value) : list ascii :=
  match v with
  | JNull => bytes "null"
  | JBool b => bytes (if b then "true" else "false")
  | JNumber n => bytes (Number_toString n)
  | JString s => quote_bytes s
  | JArray l => "["%char :: separated (map emit l) ++ ["]"%char]
  | JObject ps =>
      "{"%char
      :: separated (map (fun kv => quote_bytes (fst kv) ++ ":"%char :: emit (snd kv)) ps)
      ++ ["}"%char]
  end.

Fixpoint need (v : value) : nat :=
  match v with
  | JArray l => S (fold_right (fun e n => S (Nat.max (need e) n)) O l)
  | JObject ps => S (fold_right (fun kv n => S (Nat.max (need (snd kv)) n)) O ps)
  | _ => 1%nat
  end.

(** What follows a value inside the output of [JSON.stringify]: the end
    of the text, a comma or a closing bracket. *)
Definition delimited (rest : list ascii) : Prop :=
  match rest with
  | [] => True
  | c :: _ => c = ","%char \/ c = "]"%char \/ c = "}"%char
  end.

(** No digit comes next. *)
Definition no_digit_ahead (r : list ascii) : Prop :=
  match r with
  | [] => True
  | c :: _ => is_digit c = false
  end.

(** The digits of a number that is not zero. *)
Definition shaped (d : ascii) (ds : list ascii) : Prop :=
  forallb is_digit (d :: ds) = true
  /\ is_zero d = false /\ is_zero (List.last ds d) = false.

(** The first byte of a serialized value: it is not white space and it
    closes nothing. *)
Definition opens_value (c : ascii) : Prop :=
  is_json_ws c = false /\ Ascii.eqb c "]" = false /\ Ascii.eqb c "}" = false.

(** The fuel for the elements of an array or the members of an object. *)
Definition need_all {A} (f : A -> nat) (l : list A) : nat :=
  fold_right (fun e n => S (Nat.max (f e) n)) O l.

(** [parse_value] reads [v] back from its serialization. *)
Definition reads_back (v : value) : Prop :=
  canonical v = true ->
  forall fuel rest, (need v <= fuel)%nat -> delimited rest ->
  parse_value fuel (emit v ++ rest) = Some (v, rest).



(** *** Reading an encoded component back *)

(** Undoes [encode_byte]: a percent sign followed by two hexadecimal
    digits is the octet they denote, every other byte is itself.  The
    handler does not call it; it shows what [encodeURIComponent] keeps. *)
Fixpoint unescape (l : list ascii) : list ascii :=
  match l with
  | [] => []
  | c :: l1 =>
      if Ascii.eqb c "%" then
        match l1 with
        | h :: lo :: l2 =>
            match hex_value h, hex_value lo with
            | Some x, Some y => byte (x * 16 + y) :: unescape l2
            | _, _ => c :: unescape l1
            end
        | _ => c :: unescape l1
        end
      else c :: unescape l1
  end.

End JS.

(** ** The handler *)

Module Weather.
Import JS.

(** *** Data *)

(** The part of the Netlify event the handler reads.
    [queryStringParameters] is [None] for JavaScript's [null]. *)
Record Event : Type := {
  httpMethod : string;
  queryStringParameters : option (gmap string string)
}.

(** [process.env]: [WEATHER_API_KEY] is [None] when the variable is not
    defined. *)
Record Env : Type := {
  WEATHER_API_KEY : option string
}.

(** What [statusCode] can hold.  The handler computes it by a property
    lookup on an object literal, which also finds the members that the
    literal inherits from [Object.prototype]; these are not numbers. *)
Inductive status : Type :=
| HttpStatus (n : Z)
| PrototypeMember (name : string).

Record Response : Type := {
  statusCode : status;
  headers : list (string * string);
  body : string
}.

(** The response of the upstream as [fetch] resolves it: [response.ok]
    is true for the statuses 200 to 299, [response.json()] resolves to
    the parsed body or rejects. *)
Record UpstreamResponse : Type := {
  status_of : Z;
  json : completion value
}.

Definition ok (r : UpstreamResponse) : bool :=
  (200 <=? status_of r) && (status_of r <=? 299).

(** *** Effects *)

(** The two effects of the handler: a line written by [console.error]
    and a call of [fetch]. *)
Inductive effect : Type :=
| Logged (args : list string)
| Fetched (url : string).

(** A handler run: it ends with a value, writes to the console and goes
    on, or awaits [fetch] and goes on with what comes back. *)
Inductive prog (A : Type) : Type :=
| Return (a : A)
| ConsoleError (args : list string) (k : prog A)
| Fetch (url : string) (k : completion UpstreamResponse -> prog A).
Arguments Return {A} a.
Arguments ConsoleError {A} args k.
Arguments Fetch {A} url k.

(** Runs a program against an upstream, given as the outcome of [fetch]
    for each URL; returns the result and the effects in order. *)
Fixpoint run {A} (upstream : string -> completion UpstreamResponse)
  (p : prog A) : A * list effect :=
  match p with
  | Return a => (a, [])
  | ConsoleError args k =>
      let (a, t) := run upstream k in (a, Logged args :: t)
  | Fetch url k =>
      let (a, t) := run upstream (k (upstream url)) in (a, Fetched url :: t)
  end.

(** *** [exports.handler] *)

(** 1. CORS headers: the constant [headers] of the source. *)
Definition cors_headers : list (string * string) :=
  [ ("Access-Control-Allow-Origin", "*");
    ("Access-Control-Allow-Headers", "Content-Type");
    ("Content-Type", "application/json") ].

(** The object literal [statusMap]; a numeric literal key is the
    property whose name is its decimal numeral. *)
Definition statusMap : list (string * Z) :=
  [ ("1006", 404);   (* No matching location found *)
    ("2006", 401);   (* Invalid API key *)
    ("2007", 403);   (* API key has exceeded monthly quota *)
    ("2008", 403);   (* API key has been disabled *)
    ("9000", 400);   (* Json body passed in bulk request is invalid *)
    ("9001", 400) ]. (* Json body is too large *)

(** The properties every object literal inherits from [Object.prototype]. *)
Definition Object_prototype : list string :=
  [ "constructor"; "hasOwnProperty"; "isPrototypeOf"; "propertyIsEnumerable";
    "toLocaleString"; "toString"; "valueOf"; "__proto__";
    "__defineGetter__"; "__defineSetter__"; "__lookupGetter__";
    "__lookupSetter__" ].

Fixpoint assoc (key : string) (l : list (string * Z)) : option Z :=
  match l with
  | [] => None
  | (k, n) :: l' => if String.eqb k key then Some n else assoc key l'
  end.

(** [statusMap[key]]: an own property, else an inherited one, else
    [undefined]. *)
Definition statusMap_get (key : string) : option status :=
  match assoc key statusMap with
  | Some n => Some (HttpStatus n)
  | None =>
      if existsb (String.eqb key) Object_prototype
      then Some (PrototypeMember key)
      else None
  end.

(** [!x] on a value that is a string or [undefined]. *)
Definition not_ (x : option string) : bool :=
  match x with
  | None => true
  | Some s => String.eqb s ""
  end.

Definition weatherUrl (API_KEY city : string) : string :=
  "https://api.weatherapi.com/v1/forecast.json"
  +:+ "?key=" +:+ API_KEY
  +:+ "&q=" +:+ encodeURIComponent (trim city)
  +:+ "&days=7"
  +:+ "&aqi=yes".

(** The body of the [try] block after [fetch] resolves, up to its first
    effect: everything that can throw comes before the [console.error]
    of branch 7a. *)
Definition try_block (response : UpstreamResponse)
  : completion (prog Response) :=
  data ← json response;
  if negb (ok response) then
    (* 7a. WeatherAPI error responses *)
    let errorCode :=
      nullish_or (optional_get (optional_get (Some data) "error") "code")
                 (JString "unknown") in
    let errorMessage :=
      nullish_or (optional_get (optional_get (Some data) "error") "message")
                 (JString "Unknown error from WeatherAPI.") in
    key ← ToPropertyKey errorCode;
    let statusCode := default (HttpStatus 502) (statusMap_get key) in
    code_text ← ToString errorCode;
    message_text ← ToString errorMessage;
    Normal
      (ConsoleError
         ["WeatherAPI error [" +:+ code_text +:+ "]: " +:+ message_text]
         (Return {| statusCode := statusCode;
                    headers := cors_headers;
                    body := JSON_stringify
                              (JObject [("error", errorMessage);
                                        ("code", errorCode)]) |}))
  else
    (* 7b. success *)
    Normal (Return {| statusCode := HttpStatus 200;
                      headers := cors_headers;
                      body := JSON_stringify data |}).

(** 7c. the [catch] block *)
Definition catch_block (message : string) : prog Response :=
  ConsoleError ["Unexpected error fetching weather data:"; message]
    (Return {| statusCode := HttpStatus 500;
               headers := cors_headers;
               body := JSON_stringify
                         (JObject
                            [("error", JString "Failed to fetch weather data. Please try again later.");
                             ("detail", JString message)]) |}).

(** 7. the [try] statement, entered when [fetch] settles: a rejection
    of [fetch] or of [response.json()] and an error thrown in the block
    all reach the [catch] block. *)
Definition try_catch (fetched : completion UpstreamResponse) : prog Response :=
  match response ← fetched; try_block response with
  | Normal rest => rest
  | Throw message => catch_block message
  end.

Definition handler (event : Event) (env : Env) : prog Response :=
  (* 2. preflight *)
  if String.eqb (httpMethod event) "OPTIONS" then
    Return {| statusCode := HttpStatus 204; headers := cors_headers; body := "" |}
  (* 3. only GET *)
  else if negb (String.eqb (httpMethod event) "GET") then
    Return {| statusCode := HttpStatus 405;
              headers := cors_headers;
              body := JSON_stringify
                        (JObject [("error", JString "Method not allowed. Use GET.")]) |}
  else
    (* 4. the city query parameter *)
    let city := default ∅ (queryStringParameters event) !! "city" in
    if not_ city || String.eqb (trim (default "" city)) "" then
      Return {| statusCode := HttpStatus 400;
                headers := cors_headers;
                body := JSON_stringify
                          (JObject
                             [("error", JString "Missing required query parameter: city");
                              ("example", JString "/.netlify/functions/weather?city=Boston")]) |}
    else
      (* 5. the API key *)
      let API_KEY := WEATHER_API_KEY env in
      if not_ API_KEY then
        ConsoleError ["WEATHER_API_KEY environment variable is not set."]
          (Return {| statusCode := HttpStatus 500;
                     headers := cors_headers;
                     body := JSON_stringify
                               (JObject [("error", JString "Server configuration error: API key not set.")]) |})
      else
        (* 6. and 7. *)
        Fetch (weatherUrl (default "" API_KEY) (default "" city)) try_catch.

(** The response and the effects of one invocation. *)
Definition invoke (upstream : string -> completion UpstreamResponse)
  (env : Env) (event : Event) : Response * list effect :=
  run upstream (handler event env).

(** A property of every value a program can end with. *)
Fixpoint always {A} (P : A -> Prop) (p : prog A) : Prop :=
  match p with
  | Return a => P a
  | ConsoleError _ k => always P k
  | Fetch _ k => forall fetched, always P (k fetched)
  end.

(** The URLs fetched and the lines logged, in order. *)
Definition fetched_urls (t : list effect) : list string :=
  flat_map (fun e => match e with Fetched url => [url] | Logged _ => [] end) t.

Definition logged_lines (t : list effect) : list (list string) :=
  flat_map (fun e => match e with Logged args => [args] | Fetched _ => [] end) t.

(** The [city] the handler destructures from the event. *)
Definition city_of (event : Event) : option string :=
  default ∅ (queryStringParameters event) !! "city".

(** The test of step 4 fails: there is a city and it is not blank. *)
Definition valid_city (event : Event) (city : string) : Prop :=
  city_of event = Some city /\ trim city <> "".

(** The test of step 5 fails: the key is defined and not empty. *)
Definition key_set (env : Env) (key : string) : Prop :=
  WEATHER_API_KEY env = Some key /\ key <> "".

(** [data?.error?.code ?? "unknown"] and
    [data?.error?.message ?? "Unknown error from WeatherAPI."], the
    constants [errorCode] and [errorMessage] of branch 7a. *)
Definition errorCode_of (data : value) : value :=
  nullish_or (optional_get (optional_get (Some data) "error") "code")
             (JString "unknown").

Definition errorMessage_of (data : value) : value :=
  nullish_or (optional_get (optional_get (Some data) "error") "message")
             (JString "Unknown error from WeatherAPI.").

(** The endpoint every request goes to. *)
Definition endpoint : string := "https://api.weatherapi.com/v1/forecast.json?key=".

End Weather.

(** ** Sample requests and upstreams *)

Module Samples.
Import JS Weather.


Definition london : Event :=
  {| httpMethod := "GET";
     queryStringParameters := Some {[ "city" := " London " ]} |}.

Definition blank : Event :=
  {| httpMethod := "GET";
     queryStringParameters := Some {[ "city" := "   " ]} |}.

Definition no_key : Env := {| WEATHER_API_KEY := None |}.
Definition with_key : Env := {| WEATHER_API_KEY := Some "0123abcd" |}.

Definition forecast : value :=
  JObject
    [("location",
      JObject [("name", JString "London"); ("lat", JNumber (decimal "51.52"));
               ("lon", JNumber (decimal "-0.11"));
               ("localtime_epoch", JNumber (integer 1700000000))]);
     ("forecast",
      JObject [("forecastday",
                JArray [JObject [("maxtemp_c", JNumber (decimal "12.5"));
                                 ("mintemp_c", JNumber (integer (-3)));
                                 ("air_quality",
                                  JObject [("pm2_5", JNumber (decimal "1.5e-7"))])];
                        JNull])])].

Definition not_found : value :=
  JObject [("error", JObject [("code", JNumber (integer 1006));
                              ("message", JString "No matching location found.")])].

Definition unknown_code : value :=
  JObject [("error", JObject [("code", JNumber (integer 9999));
                              ("message", JString "Something else.")])].

Definition upstream_ok (url : string) : completion UpstreamResponse :=
  Normal {| status_of := 200; json := Normal forecast |}.

Definition upstream_400 (url : string) : completion UpstreamResponse :=
  Normal {| status_of := 400; json := Normal not_found |}.

Definition upstream_error_200 (url : string) : completion UpstreamResponse :=
  Normal {| status_of := 200; json := Normal not_found |}.

Definition upstream_9999 (url : string) : completion UpstreamResponse :=
  Normal {| status_of := 400; json := Normal unknown_code |}.

Definition upstream_down (url : string) : completion UpstreamResponse :=
  Throw "fetch failed".

Definition post : Event :=
  {| httpMethod := "POST";
     queryStringParameters := Some {[ "city" := "London" ]} |}.

Definition london_plain : Event :=
  {| httpMethod := "GET";
     queryStringParameters := Some {[ "city" := "London" ]} |}.

Definition unavailable : value :=
  JObject [("message", JString "Service unavailable")].

Definition odd_message : value :=
  JObject [("error", JObject [("code", JNumber (integer 1006));
                              ("message", JObject [("toString", JNull)])])].

Definition upstream_503 (url : string) : completion UpstreamResponse :=
  Normal {| status_of := 503; json := Normal unavailable |}.

Definition upstream_404 (url : string) : completion UpstreamResponse :=
  Normal {| status_of := 404; json := Normal not_found |}.

Definition upstream_odd (url : string) : completion UpstreamResponse :=
  Normal {| status_of := 400; json := Normal odd_message |}.

Definition named_constructor : value :=
  JObject [("error", JObject [("code", JString "constructor");
                              ("message", JString "No such code.")])].

Definition upstream_constructor (url : string) : completion UpstreamResponse :=
  Normal {| status_of := 400; json := Normal named_constructor |}.




End Samples.

(** ** Facts about the built-ins *)

Module JSFacts.
Import JS.

(** **** Bytes *)

Lemma bytes_of_bytes l : bytes (of_bytes l) = l.
Proof. apply list_ascii_of_string_of_list_ascii. Qed.

Lemma of_bytes_bytes s : of_bytes (bytes s) = s.
Proof. apply string_of_list_ascii_of_string. Qed.

Lemma bytes_app a b : bytes (a +:+ b) = bytes a ++ bytes b.
Proof. induction a as [| c a IH]; simpl; [reflexivity | now rewrite IH]. Qed.

Lemma length_bytes s : length (bytes s) = String.length s.
Proof. induction s as [| c s IH]; simpl; [reflexivity | now rewrite IH]. Qed.

(** **** String literals *)

Lemma parse_chars_quote_char c l :
  parse_chars (quote_char c ++ l)
  = match parse_chars l with
    | Some (s, r) => Some (c :: s, r)
    | None => None
    end.
Proof.
  destruct c as [[] [] [] [] [] [] [] []]; reflexivity.
Qed.

Lemma parse_chars_quoted l rest :
  parse_chars (flat_map quote_char l ++ "034"%char :: rest) = Some (l, rest).
Proof.
  induction l as [| c l IH]; [reflexivity |].
  simpl flat_map. rewrite <- app_assoc, parse_chars_quote_char, IH. reflexivity.
Qed.

(** **** Numbers *)

Lemma delimited_parse_digits rest : delimited rest -> parse_digits rest = (Nil, rest).
Proof.
  destruct rest as [| c rest]; [reflexivity |].
  intros [-> | [-> | ->]]; reflexivity.
Qed.

Lemma parse_digits_numeral u rest :
  delimited rest ->
  parse_digits (bytes (NilEmpty.string_of_uint u) ++ rest) = (u, rest).
Proof.
  intros Hrest. induction u; simpl; try rewrite IHu; try reflexivity.
  now apply delimited_parse_digits.
Qed.

(** **** Runs of digits *)

Lemma span_digits_app ds r :
  forallb is_digit ds = true -> no_digit_ahead r ->
  span_digits (ds ++ r) = (ds, r).
Proof.
  intros Hds Hr. induction ds as [| c ds IH]; cbn [forallb span_digits app] in *.
  - destruct r as [| c r]; [reflexivity |]. cbn [no_digit_ahead span_digits] in *.
    now rewrite Hr.
  - apply andb_prop in Hds as [-> Hds]. now rewrite IH.
Qed.

Lemma delimited_no_digit rest : delimited rest -> no_digit_ahead rest.
Proof.
  destruct rest as [| c rest]; [easy |]. intros [-> | [-> | ->]]; reflexivity.
Qed.

Lemma forallb_repeat_zero m : forallb is_digit (repeat "0"%char m) = true.
Proof. induction m; simpl; auto. Qed.

(** **** Normal forms *)

Lemma drop_zeros_repeat m l : drop_zeros (repeat "0"%char m ++ l) = drop_zeros l.
Proof. induction m; simpl; auto. Qed.

Lemma drop_zeros_head d l : is_zero d = false -> drop_zeros (d :: l) = d :: l.
Proof. intros H. simpl. now rewrite H. Qed.

Lemma last_cons (d : ascii) ds d0 : List.last (d :: ds) d0 = List.last ds d.
Proof.
  revert d d0. induction ds as [| a ds IH]; intros d d0; [reflexivity |].
  change (List.last (d :: a :: ds) d0) with (List.last (a :: ds) d0).
  change (List.last (a :: ds) d) with (List.last (a :: ds) d).
  now rewrite !IH.
Qed.

Lemma rev_head (d : ascii) ds : exists tl, rev (d :: ds) = List.last ds d :: tl.
Proof.
  destruct (rev (d :: ds)) as [| c tl] eqn:E.
  - apply (f_equal (@length ascii)) in E. rewrite length_rev in E. discriminate.
  - exists tl. f_equal.
    apply (f_equal (@rev ascii)) in E. rewrite rev_involutive in E. simpl in E.
    rewrite <- (last_cons d ds d), E. symmetry. apply last_last.
Qed.

Lemma normal_padded neg d ds a b p :
  shaped d ds ->
  normal neg (repeat "0"%char a ++ (d :: ds) ++ repeat "0"%char b) p
  = {| negative := neg; digits := d :: ds; point := p - Z.of_nat a |}.
Proof.
  intros (_ & Hd & Hlast). unfold normal.
  rewrite drop_zeros_repeat. cbn [app]. rewrite (drop_zeros_head d) by assumption.
  change (d :: ds ++ repeat "0"%char b) with ((d :: ds) ++ repeat "0"%char b).
  rewrite rev_app_distr, rev_repeat, drop_zeros_repeat.
  destruct (rev_head d ds) as [tl E]. rewrite E, drop_zeros_head by assumption.
  rewrite <- E, rev_involutive. f_equal.
  rewrite !length_app, repeat_length. cbn [length]. lia.
Qed.

Lemma normal_exact neg d ds p :
  shaped d ds ->
  normal neg (d :: ds) p = {| negative := neg; digits := d :: ds; point := p |}.
Proof.
  intros H. pose proof (normal_padded neg d ds 0 0 p H) as E.
  cbn [repeat app] in E. rewrite app_nil_r in E. rewrite E. f_equal. lia.
Qed.

(** **** Numerals read back *)

Lemma delimited_fraction rest : delimited rest -> parse_fraction rest = Some ([], rest).
Proof.
  destruct rest as [| c rest]; [reflexivity |]. intros [-> | [-> | ->]]; reflexivity.
Qed.

Lemma delimited_exponent rest : delimited rest -> parse_exponent rest = Some (0, rest).
Proof.
  destruct rest as [| c rest]; [reflexivity |]. intros [-> | [-> | ->]]; reflexivity.
Qed.

Lemma parse_digits_N m rest :
  delimited rest ->
  exists u, parse_digits (numeral m ++ rest) = (u, rest)
            /\ u <> Nil /\ Z.of_uint u = Z.of_N m.
Proof.
  intros Hrest. exists (N.to_uint m). unfold numeral.
  assert (N.to_uint m <> Nil) as Hnil.
  { destruct m; [discriminate | apply Unsigned.to_uint_nonnil]. }
  replace (NilZero.string_of_uint (N.to_uint m))
    with (NilEmpty.string_of_uint (N.to_uint m))
    by (destruct (N.to_uint m); try reflexivity; now elim Hnil).
  rewrite parse_digits_numeral by assumption.
  repeat split; [assumption |].
  unfold Z.of_uint. f_equal. apply DecimalN.Unsigned.of_to.
Qed.

(** The exponent part that [magnitude] writes. *)
Lemma parse_exponent_written e rest :
  delimited rest ->
  parse_exponent
    ("e"%char :: (if e <? 0 then "-"%char else "+"%char)
     :: numeral (Z.to_N (Z.abs e)) ++ rest)
  = Some (e, rest).
Proof.
  intros Hrest.
  destruct (parse_digits_N (Z.to_N (Z.abs e)) rest Hrest) as (u & Hu & Hnil & Hval).
  unfold parse_exponent. change (Ascii.eqb "e" "e" || Ascii.eqb "e" "E") with true.
  cbv iota. destruct (e <? 0) eqn:Hsign.
  - change (Ascii.eqb "-" "-") with true. cbv iota. rewrite Hu.
    destruct u; [now elim Hnil | ..]; rewrite Hval; do 2 f_equal; lia.
  - change (Ascii.eqb "+" "-") with false. change (Ascii.eqb "+" "+") with true.
    cbv iota. rewrite Hu.
    destruct u; [now elim Hnil | ..]; rewrite Hval; do 2 f_equal; lia.
Qed.

Lemma no_digit_point l : no_digit_ahead ("."%char :: l).
Proof. reflexivity. Qed.

Lemma no_digit_e l : no_digit_ahead ("e"%char :: l).
Proof. reflexivity. Qed.

Lemma forallb_firstn {A} (f : A -> bool) n l :
  forallb f l = true -> forallb f (firstn n l) = true.
Proof.
  revert n. induction l as [| a l IH]; intros [| n]; simpl; try easy.
  intros H. apply andb_prop in H as [-> H]. now apply IH.
Qed.

Lemma forallb_skipn {A} (f : A -> bool) n l :
  forallb f l = true -> forallb f (skipn n l) = true.
Proof.
  revert n. induction l as [| a l IH]; intros [| n]; simpl; try easy.
  intros H. apply andb_prop in H as [_ H]. now apply IH.
Qed.

(** [parse_magnitude] at a run of digits that starts with [d]. *)
Lemma parse_magnitude_run minus d int l2 :
  forallb is_digit (d :: int) = true -> no_digit_ahead l2 ->
  (is_zero d = false \/ int = []) ->
  parse_magnitude minus ((d :: int) ++ l2)
  = match parse_fraction l2 with
    | Some (frac, l3) =>
        match parse_exponent l3 with
        | Some (e, l4) =>
            let x := normal minus ((d :: int) ++ frac)
                       (Z.of_nat (length (d :: int)) + e) in
            if represented x then Some (x, l4) else None
        | None => None
        end
    | None => None
    end.
Proof.
  intros Hds Hl2 Hlead. unfold parse_magnitude.
  rewrite span_digits_app by assumption.
  assert (is_zero d && negb match int with [] => true | _ :: _ => false end = false)
    as -> by (destruct Hlead as [-> | ->]; [reflexivity | apply andb_false_r]).
  destruct (parse_fraction l2) as [[frac l3] |]; [| reflexivity].
  cbn [mbind option_bind]. destruct (parse_exponent l3) as [[e l4] |]; reflexivity.
Qed.

Lemma parse_magnitude_written minus d ds n rest :
  shaped d ds ->
  represented {| negative := minus; digits := d :: ds; point := n |} = true ->
  delimited rest ->
  parse_magnitude minus (magnitude (d :: ds) n ++ rest)
  = Some ({| negative := minus; digits := d :: ds; point := n |}, rest).
Proof.
  intros Hshape Hrep Hrest. pose proof Hshape as (Hds & Hd & Hlast).
  unfold magnitude. set (k := Z.of_nat (length (d :: ds))).
  assert (0 < k) as Hk by (unfold k; cbn [length]; lia).
  destruct ((k <=? n) && (n <=? 21)) eqn:C1.
  { apply andb_prop in C1 as [C1 _]. apply Z.leb_le in C1.
    change (((d :: ds) ++ repeat "0"%char (Z.to_nat (n - k))) ++ rest)
      with ((d :: ds ++ repeat "0"%char (Z.to_nat (n - k))) ++ rest).
    rewrite parse_magnitude_run;
      [| cbn [forallb] in *; apply andb_prop in Hds as [-> Hds]; cbn [andb];
         rewrite forallb_app, Hds; apply forallb_repeat_zero
       | now apply delimited_no_digit | now left].
    rewrite delimited_fraction, delimited_exponent by assumption. cbv zeta.
    rewrite app_nil_r.
    pose proof (normal_padded minus d ds 0 (Z.to_nat (n - k))
                  (Z.of_nat (length (d :: ds ++ repeat "0"%char (Z.to_nat (n - k)))) + 0)
                  Hshape) as E.
    cbn [repeat app] in E. rewrite E.
    replace (Z.of_nat (length (d :: ds ++ repeat "0"%char (Z.to_nat (n - k)))) + 0
             - Z.of_nat 0) with n
      by (cbn [length]; rewrite length_app, repeat_length; unfold k in *;
          cbn [length] in *; lia).
    now rewrite Hrep. }
  destruct ((0 <? n) && (n <=? 21)) eqn:C2.
  { apply andb_prop in C2 as [C2 C2']. apply Z.ltb_lt in C2. apply Z.leb_le in C2'.
    assert (n < k) as Hnk.
    { apply andb_false_iff in C1 as [C1 | C1]; apply Z.leb_gt in C1; lia. }
    clear C1.
    destruct (Z.to_nat n) as [| m] eqn:Em; [lia |].
    rewrite <- app_assoc. cbn [firstn app].
    change (d :: firstn m ds ++ "."%char :: skipn (S m) (d :: ds) ++ rest)
      with ((d :: firstn m ds) ++ "."%char :: skipn (S m) (d :: ds) ++ rest).
    rewrite parse_magnitude_run;
      [| cbn [forallb] in *; apply andb_prop in Hds as [-> Hds]; cbn [andb];
         now apply forallb_firstn
       | apply no_digit_point | now left].
    assert (skipn (S m) (d :: ds) <> []) as Hfrac.
    { intros E. apply (f_equal (@length ascii)) in E. rewrite length_skipn in E.
      unfold k in Hnk. cbn [length] in *. lia. }
    unfold parse_fraction. change (Ascii.eqb "." ".") with true. cbv iota.
    rewrite span_digits_app; [| now apply forallb_skipn | now apply delimited_no_digit].
    destruct (skipn (S m) (d :: ds)) as [| f fs] eqn:Ef; [now elim Hfrac |].
    rewrite delimited_exponent by assumption. cbv zeta. rewrite <- Ef.
    change ((d :: firstn m ds) ++ skipn (S m) (d :: ds))
      with (firstn (S m) (d :: ds) ++ skipn (S m) (d :: ds)).
    rewrite firstn_skipn, normal_exact by assumption.
    replace (Z.of_nat (length (d :: firstn m ds)) + 0) with n
      by (cbn [length]; rewrite length_firstn; unfold k in Hnk; cbn [length] in Hnk; lia).
    now rewrite Hrep. }
  destruct ((-6 <? n) && (n <=? 0)) eqn:C3.
  { apply andb_prop in C3 as [_ C3]. apply Z.leb_le in C3.
    change (("0"%char :: "."%char :: repeat "0"%char (Z.to_nat (- n)) ++ d :: ds) ++ rest)
      with (["0"%char] ++ "."%char :: (repeat "0"%char (Z.to_nat (- n)) ++ d :: ds) ++ rest).
    rewrite parse_magnitude_run; [| reflexivity | apply no_digit_point | now right].
    unfold parse_fraction. change (Ascii.eqb "." ".") with true. cbv iota.
    rewrite span_digits_app;
      [| rewrite forallb_app, forallb_repeat_zero; exact Hds
       | now apply delimited_no_digit].
    destruct (repeat "0"%char (Z.to_nat (- n)) ++ d :: ds) as [| f fs] eqn:Ef.
    { apply (f_equal (@length ascii)) in Ef. rewrite length_app in Ef.
      cbn [length] in Ef. lia. }
    rewrite delimited_exponent by assumption. cbv zeta. rewrite <- Ef.
    pose proof (normal_padded minus d ds (S (Z.to_nat (- n))) 0
                  (Z.of_nat (length ["0"%char]) + 0) Hshape) as E.
    cbn [repeat] in E. rewrite app_nil_r in E. cbn [app] in E |- *. rewrite E.
    replace (Z.of_nat (length ["0"%char]) + 0 - Z.of_nat (S (Z.to_nat (- n)))) with n
      by (cbn [length]; lia).
    now rewrite Hrep. }
  destruct ds as [| d' ds'].
  - change ((d :: "e"%char :: (if n - 1 <? 0 then "-"%char else "+"%char)
               :: numeral (Z.to_N (Z.abs (n - 1)))) ++ rest)
      with ([d] ++ "e"%char :: (if n - 1 <? 0 then "-"%char else "+"%char)
                   :: numeral (Z.to_N (Z.abs (n - 1))) ++ rest).
    rewrite parse_magnitude_run; [| exact Hds | apply no_digit_e | now right].
    change (parse_fraction ("e"%char :: ?l)) with (Some ([] : list ascii, "e"%char :: l)).
    cbv beta iota.
    rewrite parse_exponent_written by assumption. cbv zeta.
    rewrite app_nil_r, normal_exact by assumption.
    replace (Z.of_nat (length [d]) + (n - 1)) with n by (cbn [length]; lia).
    now rewrite Hrep.
  - cbn [app]. rewrite <- app_assoc. cbn [app].
    change (d :: "."%char :: d' :: ds' ++ ?l) with ([d] ++ "."%char :: (d' :: ds') ++ l).
    rewrite parse_magnitude_run; [| | apply no_digit_point | now right].
    2:{ cbn [forallb] in *. apply andb_prop in Hds as [-> _]. reflexivity. }
    unfold parse_fraction. change (Ascii.eqb "." ".") with true. cbv iota.
    rewrite span_digits_app; [| | apply no_digit_e].
    2:{ cbn [forallb] in Hds. now apply andb_prop in Hds as [_ Hds]. }
    rewrite parse_exponent_written by assumption. cbv zeta.
    cbn [app]. rewrite normal_exact by assumption.
    replace (Z.of_nat (length [d]) + (n - 1)) with n by (cbn [length]; lia).
    now rewrite Hrep.
Qed.

Lemma well_formed_shaped minus d ds n :
  well_formed {| negative := minus; digits := d :: ds; point := n |} = true ->
  shaped d ds.
Proof.
  unfold well_formed, shaped. cbn [digits]. intros H.
  apply andb_prop in H as [H Hlast]. apply andb_prop in H as [Hds Hd].
  apply negb_true_iff in Hd, Hlast. auto.
Qed.

Lemma magnitude_head d ds n :
  is_digit d = true ->
  exists c tl, magnitude (d :: ds) n = c :: tl /\ is_digit c = true.
Proof.
  intros Hd. unfold magnitude.
  destruct ((Z.of_nat (length (d :: ds)) <=? n) && (n <=? 21)).
  { exists d. eexists. split; [reflexivity | assumption]. }
  destruct ((0 <? n) && (n <=? 21)) eqn:C2.
  { apply andb_prop in C2 as [C2 _]. apply Z.ltb_lt in C2.
    destruct (Z.to_nat n) as [| m] eqn:Em; [lia |].
    exists d. eexists. split; [reflexivity | assumption]. }
  destruct ((-6 <? n) && (n <=? 0)).
  { exists "0"%char. eexists. split; reflexivity. }
  destruct ds; exists d; eexists; (split; [reflexivity | assumption]).
Qed.

Lemma digit_not_minus c : is_digit c = true -> Ascii.eqb c "-" = false.
Proof. destruct (Ascii.eqb_spec c "-"); [subst c; discriminate | reflexivity]. Qed.

Lemma parse_number_toString x rest :
  well_formed x = true -> represented x = true -> delimited rest ->
  parse_number (bytes (Number_toString x) ++ rest) = Some (x, rest).
Proof.
  destruct x as [minus [| d ds] n]; intros Hwf Hrep Hrest;
    unfold Number_toString; rewrite bytes_of_bytes; cbn [digits negative point].
  - unfold well_formed in Hwf. cbn [digits negative point] in Hwf.
    apply andb_prop in Hwf as [Hminus Hn].
    apply negb_true_iff in Hminus. apply Z.eqb_eq in Hn. subst minus n.
    cbn [app parse_number]. change (Ascii.eqb "0" "-") with false. cbv iota.
    change ("0"%char :: rest) with (["0"%char] ++ rest).
    rewrite parse_magnitude_run;
      [| reflexivity | now apply delimited_no_digit | now right].
    now rewrite delimited_fraction, delimited_exponent by assumption.
  - pose proof (well_formed_shaped _ _ _ _ Hwf) as Hshape.
    pose proof (parse_magnitude_written minus d ds n rest Hshape Hrep Hrest) as E.
    destruct minus.
    + cbn [app parse_number]. change (Ascii.eqb "-" "-") with true. exact E.
    + destruct Hshape as (Hds & _). cbn [forallb] in Hds.
      apply andb_prop in Hds as [Hd _].
      destruct (magnitude_head d ds n Hd) as (c & tl & Em & Hc).
      rewrite Em in *. cbn [app parse_number]. now rewrite (digit_not_minus c Hc).
Qed.

Lemma Number_toString_nonempty x : bytes (Number_toString x) <> [].
Proof.
  unfold Number_toString. rewrite bytes_of_bytes.
  destruct (digits x) as [| d ds]; [discriminate |].
  destruct (negative x); [discriminate |]. unfold magnitude.
  destruct (_ && _); [discriminate |].
  destruct (_ && _); [intros E; now apply app_eq_nil in E as [_ E] |].
  destruct (_ && _); [discriminate |].
  destruct ds; discriminate.
Qed.

Lemma number_head x rest :
  well_formed x = true ->
  exists c tl,
    bytes (Number_toString x) ++ rest = c :: tl
    /\ (c = "-"%char \/ is_digit c = true).
Proof.
  destruct x as [minus [| d ds] n]; intros Hwf;
    unfold Number_toString; rewrite bytes_of_bytes; cbn [digits negative point].
  - eexists _, _. split; [reflexivity | now right].
  - destruct (well_formed_shaped _ _ _ _ Hwf) as (Hds & _). cbn [forallb] in Hds.
    apply andb_prop in Hds as [Hd _].
    destruct minus; [eexists _, _; split; [reflexivity | now left] |].
    destruct (magnitude_head d ds n Hd) as (c & tl & -> & Hc).
    eexists _, _. split; [reflexivity | now right].
Qed.

(** **** Property order *)

Lemma ordered_keys_tail k ks : ordered_keys (k :: ks) = true -> ordered_keys ks = true.
Proof. simpl. intros H. now apply andb_prop in H as [_ H]. Qed.

Lemma define_property_last acc k v ks :
  ordered_keys (map fst acc ++ k :: ks) = true ->
  define_property acc (k, v) = acc ++ [(k, v)].
Proof.
  intros H.
  assert (has_key k acc = false
          /\ forall i, array_index k = Some i ->
                       insert_index i k v acc = acc ++ [(k, v)]) as [Hfresh Hins].
  { induction acc as [| [k' v'] acc IH]; [split; reflexivity |].
    simpl map in H. simpl app in H.
    destruct (IH (ordered_keys_tail _ _ H)) as [IH1 IH2].
    cbn [ordered_keys] in H. apply andb_prop in H as [H _].
    rewrite forallb_app in H. apply andb_prop in H as [_ H].
    cbn [forallb] in H. apply andb_prop in H as [H _].
    unfold before in H. apply andb_prop in H as [Hne Hord].
    apply negb_true_iff in Hne.
    split.
    - simpl. now rewrite Hne, IH1.
    - intros i Hi. simpl. rewrite Hi in Hord.
      destruct (array_index k') as [j |] eqn:Hj; [| discriminate].
      rewrite Hord. now rewrite IH2. }
  unfold define_property. rewrite Hfresh.
  destruct (array_index k) as [i |] eqn:Hi; [now apply Hins | reflexivity].
Qed.

Lemma fold_define_property ms : forall acc,
  ordered_keys (map fst (acc ++ ms)) = true ->
  fold_left define_property ms acc = acc ++ ms.
Proof.
  induction ms as [| [k v] ms IH]; intros acc H; cbn [fold_left].
  - now rewrite app_nil_r.
  - rewrite (define_property_last acc k v (map fst ms)).
    + rewrite IH; rewrite <- app_assoc; [reflexivity | exact H].
    + now rewrite map_app in H.
Qed.

Lemma build_object_ordered ps :
  ordered_keys (map fst ps) = true -> build_object ps = ps.
Proof. intros H. now apply (fold_define_property ps []). Qed.

(** **** Values *)

Lemma digit_cases c :
  is_digit c = true ->
  In c ["0"; "1"; "2"; "3"; "4"; "5"; "6"; "7"; "8"; "9"]%char.
Proof.
  destruct c as [[] [] [] [] [] [] [] []]; intros H; vm_compute in H;
    first [discriminate H | simpl; tauto].
Qed.

Lemma number_start c :
  c = "-"%char \/ is_digit c = true ->
  In c ["-"; "0"; "1"; "2"; "3"; "4"; "5"; "6"; "7"; "8"; "9"]%char.
Proof. intros [-> | H]; [now left | right; now apply digit_cases]. Qed.

Lemma parse_value_number fuel c r :
  c = "-"%char \/ is_digit c = true ->
  parse_value (S fuel) (c :: r)
  = match parse_number (c :: r) with
    | Some (n, r') => Some (JNumber n, r')
    | None => None
    end.
Proof.
  intros H. apply number_start in H. simpl in H.
  repeat (destruct H as [<- | H]; [reflexivity |]). contradiction.
Qed.

Lemma emit_head v rest :
  canonical v = true ->
  exists c tl, emit v ++ rest = c :: tl /\ opens_value c.
Proof.
  destruct v as [| [] | n | s | l | ps]; intros Hcan; simpl emit;
    try (eexists _, _; split; [reflexivity | repeat split]).
  simpl in Hcan. apply andb_prop in Hcan as [Hwf _].
  destruct (number_head n rest Hwf) as (c & tl & E & Hc).
  exists c, tl. split; [exact E |].
  apply number_start in Hc. simpl in Hc.
  repeat (destruct Hc as [<- | Hc]; [repeat split |]). contradiction.
Qed.

(** One step of each parser, as rewriting rules. *)

Lemma parse_elements_more fuel l v r vs r' :
  parse_value fuel l = Some (v, ","%char :: r) ->
  parse_elements fuel r = Some (vs, r') ->
  parse_elements (S fuel) l = Some (v :: vs, r').
Proof. intros H1 H2. cbn [parse_elements]. rewrite H1. cbn. now rewrite H2. Qed.

Lemma parse_elements_last fuel l v r :
  parse_value fuel l = Some (v, "]"%char :: r) ->
  parse_elements (S fuel) l = Some ([v], r).
Proof. intros H1. cbn [parse_elements]. now rewrite H1. Qed.

Lemma parse_members_more fuel l k r v r' ms r'' :
  parse_chars l = Some (k, ":"%char :: r) ->
  parse_value fuel r = Some (v, ","%char :: r') ->
  parse_members fuel r' = Some (ms, r'') ->
  parse_members (S fuel) ("034"%char :: l) = Some ((of_bytes k, v) :: ms, r'').
Proof.
  intros H1 H2 H3. cbn [parse_members skip_ws]. cbn. rewrite H1. cbn.
  rewrite H2. cbn. now rewrite H3.
Qed.

Lemma parse_members_last fuel l k r v r' :
  parse_chars l = Some (k, ":"%char :: r) ->
  parse_value fuel r = Some (v, "}"%char :: r') ->
  parse_members (S fuel) ("034"%char :: l) = Some ([(of_bytes k, v)], r').
Proof.
  intros H1 H2. cbn [parse_members skip_ws]. cbn. rewrite H1. cbn. now rewrite H2.
Qed.

Lemma parse_value_string fuel l s r :
  parse_chars l = Some (s, r) ->
  parse_value (S fuel) ("034"%char :: l) = Some (JString (of_bytes s), r).
Proof. intros H. cbn [parse_value skip_ws]. cbn. now rewrite H. Qed.

Lemma skip_ws_cons c tl : is_json_ws c = false -> skip_ws (c :: tl) = c :: tl.
Proof. intros H. cbn [skip_ws]. now rewrite H. Qed.

Lemma parse_value_array fuel c tl vs r :
  opens_value c ->
  parse_elements fuel (c :: tl) = Some (vs, r) ->
  parse_value (S fuel) ("["%char :: c :: tl) = Some (JArray vs, r).
Proof.
  intros (Hws & Hclose & _) H. cbn [parse_value].
  rewrite (skip_ws_cons "[") by reflexivity. cbn -[skip_ws parse_elements].
  rewrite (skip_ws_cons c) by assumption. now rewrite Hclose, H.
Qed.

Lemma parse_value_object fuel tl ms r :
  parse_members fuel ("034"%char :: tl) = Some (ms, r) ->
  parse_value (S fuel) ("{"%char :: "034"%char :: tl) = Some (JObject (build_object ms), r).
Proof. intros H. cbn [parse_value skip_ws]. cbn. now rewrite H. Qed.

Lemma parse_elements_emit l :
  l <> [] -> Forall reads_back l -> forallb canonical l = true ->
  forall fuel rest, (need_all need l <= fuel)%nat ->
  parse_elements fuel (separated (map emit l) ++ "]"%char :: rest) = Some (l, rest).
Proof.
  induction l as [| x l IH]; [congruence |]. intros _ Hall Hcan fuel rest Hfuel.
  apply Forall_cons in Hall as [Hx Hall].
  simpl in Hcan. apply andb_prop in Hcan as [Hcx Hcan].
  cbn [need_all fold_right] in Hfuel. fold (need_all need l) in Hfuel.
  destruct fuel as [| fuel]; [lia |].
  destruct l as [| y l].
  - cbn [map separated]. apply parse_elements_last.
    apply (Hx Hcx); [lia | simpl; tauto].
  - change (separated (map emit (x :: y :: l)))
      with (emit x ++ ","%char :: separated (map emit (y :: l))).
    rewrite <- app_assoc.
    apply parse_elements_more with (r := separated (map emit (y :: l)) ++ "]"%char :: rest).
    + apply (Hx Hcx); [lia | simpl; tauto].
    + apply IH; [discriminate | assumption | assumption | lia].
Qed.

Lemma parse_members_emit ps :
  ps <> [] -> Forall (fun kv => reads_back (snd kv)) ps ->
  forallb (fun kv => canonical (snd kv)) ps = true ->
  forall fuel rest, (need_all (fun kv => need (snd kv)) ps <= fuel)%nat ->
  parse_members fuel
    (separated (map (fun kv => quote_bytes (fst kv) ++ ":"%char :: emit (snd kv)) ps)
     ++ "}"%char :: rest)
  = Some (ps, rest).
Proof.
  induction ps as [| [k x] ps IH]; [congruence |]. intros _ Hall Hcan fuel rest Hfuel.
  apply Forall_cons in Hall as [Hx Hall]. simpl in Hx.
  simpl in Hcan. apply andb_prop in Hcan as [Hcx Hcan].
  cbn [need_all fold_right snd] in Hfuel.
  fold (need_all (fun kv => need (snd kv)) ps) in Hfuel.
  destruct fuel as [| fuel]; [lia |].
  destruct ps as [| y ps].
  - cbn [map separated fst snd]. unfold quote_bytes.
    replace (Some ([(k, x)], rest)) with (Some ([(of_bytes (bytes k), x)], rest))
      by now rewrite of_bytes_bytes.
    cbn [app]. rewrite <- !app_assoc. cbn [app].
    eapply parse_members_last.
    + apply parse_chars_quoted.
    + apply (Hx Hcx); [lia | simpl; tauto].
  - change (separated (map (fun kv => quote_bytes (fst kv) ++ ":"%char :: emit (snd kv))
                         ((k, x) :: y :: ps)))
      with ((quote_bytes k ++ ":"%char :: emit x)
            ++ ","%char :: separated (map (fun kv => quote_bytes (fst kv) ++ ":"%char :: emit (snd kv)) (y :: ps))).
    unfold quote_bytes at 1.
    replace (Some ((k, x) :: y :: ps, rest))
      with (Some ((of_bytes (bytes k), x) :: y :: ps, rest))
      by now rewrite of_bytes_bytes.
    cbn [app]. rewrite <- !app_assoc. cbn [app].
    eapply parse_members_more.
    + apply parse_chars_quoted.
    + apply (Hx Hcx); [lia | simpl; tauto].
    + apply IH; [discriminate | assumption | assumption | lia].
Qed.

Lemma parse_value_emit v : reads_back v.
Proof.
  induction v as [| b | n | s | l IH | ps IH] using value_ind; intros Hcan fuel rest Hfuel Hrest;
    (destruct fuel as [| fuel]; [simpl in Hfuel; lia |]).
  - reflexivity.
  - destruct b; reflexivity.
  - simpl emit. simpl in Hcan. apply andb_prop in Hcan as [Hwf Hrep].
    destruct (number_head n rest Hwf) as (c & tl & E & Hc).
    pose proof (parse_number_toString n rest Hwf Hrep Hrest) as Hn.
    rewrite E in *. rewrite parse_value_number, Hn by assumption. reflexivity.
  - simpl emit. unfold quote_bytes. cbn [app]. rewrite <- app_assoc. cbn [app].
    replace (JString s) with (JString (of_bytes (bytes s)))
      by now rewrite of_bytes_bytes.
    apply parse_value_string, parse_chars_quoted.
  - simpl in Hcan. cbn [need] in Hfuel. fold (need_all need l) in Hfuel.
    cbn [emit]. cbn [app]. rewrite <- app_assoc. cbn [app].
    destruct l as [| x l]; [reflexivity |].
    assert (exists c tl, separated (map emit (x :: l)) ++ "]"%char :: rest = c :: tl
                         /\ opens_value c) as (c & tl & E & Hopen).
    { cbn [forallb] in Hcan. apply andb_prop in Hcan as [Hx _].
      destruct l; cbn [map separated].
      - now apply emit_head.
      - rewrite <- app_assoc. now apply emit_head. }
    rewrite E. apply parse_value_array; [assumption |]. rewrite <- E.
    apply parse_elements_emit; [discriminate | assumption | assumption | lia].
  - simpl in Hcan. apply andb_prop in Hcan as [Hord Hcan].
    cbn [need] in Hfuel. fold (need_all (fun kv => need (snd kv)) ps) in Hfuel.
    cbn [emit]. cbn [app]. rewrite <- app_assoc. cbn [app].
    destruct ps as [| [k x] ps]; [reflexivity |].
    match goal with
    | |- parse_value _ (_ :: ?t) = _ =>
        assert (exists tl, t = "034"%char :: tl) as (tl & E)
    end.
    { cbn [map separated fst]. unfold quote_bytes. destruct ps; cbn [app]; eexists; reflexivity. }
    rewrite E.
    replace (JObject ((k, x) :: ps)) with (JObject (build_object ((k, x) :: ps)))
      by now rewrite build_object_ordered.
    apply parse_value_object. rewrite <- E.
    apply parse_members_emit; [discriminate | assumption | assumption | lia].
Qed.

(** **** [JSON.parse] after [JSON.stringify] *)

Lemma bytes_quote s : bytes (QuoteJSONString s) = quote_bytes s.
Proof. apply bytes_of_bytes. Qed.

Lemma bytes_join {A} (f : A -> string) (g : A -> list ascii) l :
  Forall (fun x => bytes (f x) = g x) l ->
  bytes (join "," (map f l)) = separated (map g l).
Proof.
  induction 1 as [| x l Hx _ IH]; [reflexivity |].
  destruct l as [| y l]; [exact Hx |].
  change (join "," (map f (x :: y :: l)))
    with (f x +:+ "," +:+ join "," (map f (y :: l))).
  change (separated (map g (x :: y :: l)))
    with (g x ++ ","%char :: separated (map g (y :: l))).
  now rewrite !bytes_app, Hx, IH.
Qed.

Lemma bytes_stringify v : bytes (JSON_stringify v) = emit v.
Proof.
  induction v as [| b | n | s | l IH | ps IH] using value_ind; try reflexivity.
  - apply bytes_quote.
  - cbn [JSON_stringify emit]. rewrite !bytes_app.
    now rewrite (bytes_join JSON_stringify emit l IH).
  - cbn [JSON_stringify emit]. rewrite !bytes_app. f_equal.
    rewrite (bytes_join _ (fun kv => quote_bytes (fst kv) ++ ":"%char :: emit (snd kv)));
      [reflexivity |].
    eapply Forall_impl; [exact IH |]. intros [k x] Hx. cbn [fst snd] in *.
    now rewrite !bytes_app, bytes_quote, Hx.
Qed.

Lemma need_all_le {A} (f : A -> nat) (g : A -> list ascii) l :
  Forall (fun x => (f x <= length (g x))%nat) l ->
  (need_all f l <= S (length (separated (map g l))))%nat.
Proof.
  induction 1 as [| x l Hx _ IH]; [simpl; lia |].
  destruct l as [| y l].
  - cbn [need_all fold_right map separated]. lia.
  - change (separated (map g (x :: y :: l)))
      with (g x ++ ","%char :: separated (map g (y :: l))).
    change (need_all f (x :: y :: l))
      with (S (Nat.max (f x) (need_all f (y :: l)))).
    rewrite length_app. cbn [length]. lia.
Qed.

Lemma need_le_length v : (need v <= length (emit v))%nat.
Proof.
  induction v as [| b | n | s | l IH | ps IH] using value_ind;
    try (simpl; lia).
  - destruct b; simpl; lia.
  - cbn [need emit]. pose proof (Number_toString_nonempty n) as H.
    destruct (bytes (Number_toString n)); [now elim H | simpl; lia].
  - cbn [need emit]. fold (need_all need l).
    pose proof (need_all_le need emit l IH) as H.
    cbn [length]. rewrite length_app. cbn [length].
    apply le_n_S. etransitivity; [exact H | lia].
  - cbn [need emit]. fold (need_all (fun kv => need (snd kv)) ps).
    assert (Forall (fun kv : string * value =>
                      (need (snd kv) <= length (quote_bytes (fst kv) ++ ":"%char :: emit (snd kv)))%nat) ps) as H.
    { eapply Forall_impl; [exact IH |]. intros [k x] Hx. simpl in *.
      rewrite length_app. simpl. lia. }
    pose proof (need_all_le _ _ ps H) as H'.
    cbn [length]. rewrite length_app. cbn [length].
    apply le_n_S. etransitivity; [exact H' | lia].
Qed.

(** Parsing the text that [JSON.stringify] produces gives the value
    back. *)
Lemma JSON_parse_stringify v :
  canonical v = true -> JSON_parse (JSON_stringify v) = Some v.
Proof.
  intros Hcan. unfold JSON_parse.
  rewrite <- length_bytes, bytes_stringify.
  rewrite <- (app_nil_r (emit v)) at 2.
  rewrite (parse_value_emit v Hcan); [reflexivity | | exact I].
  pose proof (need_le_length v). lia.
Qed.

(** **** The image of [JSON.parse] *)

Lemma span_digits_digits l ds r :
  span_digits l = (ds, r) -> forallb is_digit ds = true.
Proof.
  revert ds r. induction l as [| c l IH]; intros ds r; cbn [span_digits].
  - now intros [= <- <-].
  - destruct (is_digit c) eqn:Hc; [| now intros [= <- <-]].
    destruct (span_digits l) as [ds' r']. intros [= <- <-].
    cbn [forallb]. rewrite Hc. now apply (IH ds' r').
Qed.

Lemma drop_zeros_suffix l : exists zs, l = zs ++ drop_zeros l.
Proof.
  induction l as [| c l [zs IH]]; [now exists [] |]. cbn [drop_zeros].
  destruct (is_zero c); [| now exists []].
  exists (c :: zs). cbn [app]. now f_equal.
Qed.

Lemma drop_zeros_head_nonzero l c tl : drop_zeros l = c :: tl -> is_zero c = false.
Proof.
  induction l as [| a l IH]; cbn [drop_zeros]; [discriminate |].
  destruct (is_zero a) eqn:Ha; [exact IH |]. now intros [= <- <-].
Qed.

Lemma forallb_drop_zeros f l : forallb f l = true -> forallb f (drop_zeros l) = true.
Proof.
  intros H. destruct (drop_zeros_suffix l) as [zs E]. rewrite E in H.
  rewrite forallb_app in H. now apply andb_prop in H as [_ H].
Qed.

Lemma forallb_rev {A} (f : A -> bool) l : forallb f (rev l) = forallb f l.
Proof.
  induction l as [| a l IH]; [reflexivity |]. cbn [rev forallb].
  rewrite forallb_app, IH. cbn [forallb]. rewrite andb_true_r. apply andb_comm.
Qed.

Lemma well_formed_normal minus ds p :
  forallb is_digit ds = true -> well_formed (normal minus ds p) = true.
Proof.
  intros Hds. unfold normal.
  set (s := drop_zeros ds).
  destruct (rev (drop_zeros (rev s))) as [| d ds'] eqn:E; [reflexivity |].
  unfold well_formed. cbn [digits].
  assert (forallb is_digit s = true) as Hs by now apply forallb_drop_zeros.
  assert (forallb is_digit (d :: ds') = true) as Hall.
  { rewrite <- E, forallb_rev. apply forallb_drop_zeros. now rewrite forallb_rev. }
  rewrite Hall. cbn [andb].
  (* the last digit *)
  assert (is_zero (List.last ds' d) = false) as Hlast.
  { destruct (rev_head d ds') as [tl Hrev]. rewrite <- E, rev_involutive in Hrev.
    now apply drop_zeros_head_nonzero in Hrev. }
  (* the first digit *)
  assert (is_zero d = false) as Hfirst.
  { destruct (drop_zeros_suffix (rev s)) as [zs Hzs].
    apply (f_equal (@rev ascii)) in Hzs. rewrite rev_involutive, rev_app_distr, E in Hzs.
    cbn [app] in Hzs. now apply (drop_zeros_head_nonzero ds d (ds' ++ rev zs)). }
  now rewrite Hfirst, Hlast.
Qed.

Lemma parse_magnitude_canonical minus l x r :
  parse_magnitude minus l = Some (x, r) ->
  well_formed x && represented x = true.
Proof.
  unfold parse_magnitude. destruct (span_digits l) as [[| d int] l2] eqn:Hspan;
    [discriminate |].
  destruct (is_zero d && _); [discriminate |].
  destruct (parse_fraction l2) as [[frac l3] |] eqn:Hfrac; [| discriminate].
  cbn [mbind option_bind].
  destruct (parse_exponent l3) as [[e l4] |]; [| discriminate].
  cbn [mbind option_bind]. cbv zeta.
  set (x0 := normal _ _ _).
  destruct (represented x0) eqn:Hrep; [| discriminate].
  intros [= <- <-]. rewrite Hrep, andb_true_r.
  apply well_formed_normal. rewrite forallb_app.
  rewrite (span_digits_digits _ _ _ Hspan). cbn [andb].
  unfold parse_fraction in Hfrac. destruct l2 as [| c l2']; [now injection Hfrac as <- _ |].
  destruct (Ascii.eqb c "."); [| now injection Hfrac as <- _].
  destruct (span_digits l2') as [[| f fs] r'] eqn:Hspan'; [discriminate |].
  injection Hfrac as <- _. now apply (span_digits_digits _ _ _ Hspan').
Qed.

Lemma parse_number_canonical l x r :
  parse_number l = Some (x, r) -> well_formed x && represented x = true.
Proof.
  unfold parse_number. destruct l as [| c l]; [discriminate |].
  destruct (Ascii.eqb c "-"); apply parse_magnitude_canonical.
Qed.

(** Array indices *)

Lemma digit_of_char c d :
  digit_of c = Some d ->
  forall u, bytes (NilEmpty.string_of_uint (d u)) = c :: bytes (NilEmpty.string_of_uint u).
Proof.
  unfold digit_of.
  repeat match goal with
         | |- context [Ascii.eqb c ?x] =>
             destruct (Ascii.eqb_spec c x); [subst c; intros [= <-]; reflexivity |]
         end.
  discriminate.
Qed.

Lemma parse_digits_inv l u :
  parse_digits l = (u, []) -> l = bytes (NilEmpty.string_of_uint u).
Proof.
  revert u. induction l as [| c l IH]; intros u; cbn [parse_digits].
  - now intros [= <-].
  - destruct (digit_of c) as [d |] eqn:Hd; [| discriminate].
    destruct (parse_digits l) as [u' r] eqn:Hl. intros [= <- ->].
    rewrite (digit_of_char c d Hd). f_equal. now apply IH.
Qed.

Lemma uint_beq_eq u v : uint_beq u v = true -> u = v.
Proof.
  revert v. induction u; destruct v; simpl; try discriminate; try reflexivity;
    intros H; f_equal; auto.
Qed.

Lemma array_index_numeral k i :
  array_index k = Some i -> bytes k = bytes (NilEmpty.string_of_uint (N.to_uint i)).
Proof.
  intros H.
  assert (exists u, parse_digits (bytes k) = (u, [])
                    /\ unorm u = u /\ N.of_uint u = i) as (u & Hu & Hnorm & Hi).
  { unfold array_index in H. destruct (parse_digits (bytes k)) as [u r].
    exists u.
    destruct u; try discriminate; (destruct r; [| discriminate]);
      (destruct (uint_beq _ _) eqn:Hn; [| discriminate]);
      (destruct (_ <? _)%N; [| discriminate]);
      injection H as <-; apply uint_beq_eq in Hn; auto. }
  pose proof (DecimalN.Unsigned.to_of u) as E. rewrite Hnorm, Hi in E.
  rewrite E. now apply parse_digits_inv.
Qed.

Lemma array_index_inj k k' i :
  array_index k = Some i -> array_index k' = Some i -> k = k'.
Proof.
  intros H H'. apply array_index_numeral in H, H'.
  rewrite <- (of_bytes_bytes k), <- (of_bytes_bytes k'). congruence.
Qed.

(** Enumeration order *)

Lemma before_cases k k' :
  before k k' = true <->
  k <> k'
  /\ match array_index k, array_index k' with
     | Some i, Some j => (i < j)%N
     | _, None => True
     | None, Some _ => False
     end.
Proof.
  unfold before. rewrite andb_true_iff, negb_true_iff, String.eqb_neq.
  destruct (array_index k), (array_index k'); rewrite ?N.ltb_lt; intuition congruence.
Qed.

Lemma forallb_insert_index (f : string -> bool) i k v ps :
  forallb f (map fst (insert_index i k v ps)) = f k && forallb f (map fst ps).
Proof.
  induction ps as [| [k' v'] ps IH]; cbn [insert_index map fst forallb].
  - reflexivity.
  - destruct (array_index k'); [destruct (_ <? _)%N |]; cbn [map fst forallb];
      rewrite ?IH; try reflexivity.
    rewrite !andb_assoc. f_equal. apply andb_comm.
Qed.

Lemma has_key_false k ps q :
  has_key k ps = false -> In q (map fst ps) -> q <> k.
Proof.
  induction ps as [| [k' v'] ps IH]; cbn [has_key map fst]; [easy |].
  intros H [<- | Hin]; apply orb_false_iff in H as [H1 H2].
  - now apply String.eqb_neq.
  - now apply IH.
Qed.

Lemma insert_index_ordered i k v ps :
  array_index k = Some i -> has_key k ps = false ->
  ordered_keys (map fst ps) = true ->
  ordered_keys (map fst (insert_index i k v ps)) = true.
Proof.
  intros Hi. induction ps as [| [k' v'] ps IH]; intros Hfresh Hord; [reflexivity |].
  cbn [map fst ordered_keys] in Hord. apply andb_prop in Hord as [Hk' Hord].
  assert (k' <> k) as Hne by (apply (has_key_false k _ k' Hfresh); now left).
  assert (has_key k ps = false) as Hfresh'.
  { cbn [has_key] in Hfresh. now apply orb_false_iff in Hfresh as [_ H]. }
  assert (forall q, In q (map fst ps) -> q <> k) as Hps
      by (intros q Hq; now apply (has_key_false k ps q)).
  rewrite forallb_forall in Hk'.
  cbn [insert_index]. destruct (array_index k') as [j |] eqn:Hj.
  - destruct (j <? i)%N eqn:Hlt.
    + cbn [map fst ordered_keys]. rewrite forallb_insert_index, IH by assumption.
      rewrite andb_true_r. apply andb_true_iff. split.
      * apply before_cases. rewrite Hj, Hi. split; [assumption | now apply N.ltb_lt].
      * now apply forallb_forall.
    + assert (i < j)%N as Hij.
      { apply N.ltb_ge in Hlt. destruct (N.eq_dec i j) as [<- |]; [| lia].
        elim Hne. now apply (array_index_inj k' k i). }
      cbn [map fst ordered_keys]. rewrite andb_true_iff. split.
      * cbn [forallb]. apply andb_true_iff. split.
        -- apply before_cases. rewrite Hi, Hj. split; [congruence | assumption].
        -- apply forallb_forall. intros q Hq. specialize (Hk' q Hq).
           apply before_cases in Hk' as [_ Hk']. apply before_cases.
           rewrite Hi. rewrite Hj in Hk'. split; [specialize (Hps q Hq); congruence |].
           destruct (array_index q); [lia | exact I].
      * apply andb_true_iff. split; [now apply forallb_forall | assumption].
  - cbn [map fst ordered_keys]. rewrite andb_true_iff. split.
    + cbn [forallb]. apply andb_true_iff. split.
      * apply before_cases. rewrite Hi, Hj. split; [congruence | exact I].
      * apply forallb_forall. intros q Hq. specialize (Hk' q Hq).
        apply before_cases in Hk' as [_ Hk']. apply before_cases.
        rewrite Hi. rewrite Hj in Hk'. split; [specialize (Hps q Hq); congruence |].
        destruct (array_index q); [contradiction | exact I].
    + apply andb_true_iff. split; [now apply forallb_forall | assumption].
Qed.

Lemma ordered_keys_snoc ks k :
  ordered_keys ks = true -> (forall q, In q ks -> before q k = true) ->
  ordered_keys (ks ++ [k]) = true.
Proof.
  induction ks as [| a ks IH]; intros Hord Hk; [reflexivity |].
  cbn [ordered_keys] in Hord. apply andb_prop in Hord as [Ha Hord].
  cbn [app ordered_keys]. rewrite forallb_app, Ha, IH; cbn [forallb andb].
  - now rewrite Hk by now left.
  - assumption.
  - intros q Hq. apply Hk. now right.
Qed.

Lemma keys_replace_value k v ps : map fst (replace_value k v ps) = map fst ps.
Proof.
  induction ps as [| [k' v'] ps IH]; [reflexivity |]. cbn [replace_value].
  destruct (String.eqb k' k); cbn [map fst]; [reflexivity | now rewrite IH].
Qed.

Lemma define_property_keys ps kv :
  ordered_keys (map fst ps) = true ->
  ordered_keys (map fst (define_property ps kv)) = true.
Proof.
  destruct kv as [k v]. intros Hord. unfold define_property.
  destruct (has_key k ps) eqn:Hfresh; [now rewrite keys_replace_value |].
  destruct (array_index k) as [i |] eqn:Hi; [now apply insert_index_ordered |].
  rewrite map_app. cbn [map fst]. apply ordered_keys_snoc; [assumption |].
  intros q Hq. apply before_cases. rewrite Hi.
  split; [now apply (has_key_false k ps q) | now destruct (array_index q)].
Qed.

Lemma build_object_keys ms : ordered_keys (map fst (build_object ms)) = true.
Proof.
  unfold build_object. generalize (eq_refl : ordered_keys (map fst (@nil (string * value))) = true).
  generalize (@nil (string * value)). induction ms as [| kv ms IH]; intros acc Hacc.
  - exact Hacc.
  - cbn [fold_left]. apply IH. now apply define_property_keys.
Qed.

(** The values of a built object are values of its members. *)

Lemma define_property_values (P : value -> bool) ps kv :
  forallb (fun kv => P (snd kv)) ps = true -> P (snd kv) = true ->
  forallb (fun kv => P (snd kv)) (define_property ps kv) = true.
Proof.
  destruct kv as [k v]. cbn [snd]. intros Hps Hv. unfold define_property.
  destruct (has_key k ps).
  - clear -Hps Hv. induction ps as [| [k' v'] ps IH]; [reflexivity |].
    cbn [forallb snd] in Hps. apply andb_prop in Hps as [Hv' Hps].
    cbn [replace_value]. destruct (String.eqb k' k); cbn [forallb snd].
    + now rewrite Hv, Hps.
    + now rewrite Hv', IH.
  - destruct (array_index k) as [i |].
    + clear -Hps Hv. induction ps as [| [k' v'] ps IH]; cbn [insert_index].
      * cbn [forallb snd]. now rewrite Hv.
      * pose proof Hps as Hps'. cbn [forallb snd] in Hps'.
        apply andb_prop in Hps' as [Hv' Hps'].
        destruct (array_index k'); [destruct (_ <? _)%N |]; cbn [forallb snd] in *;
          rewrite ?Hv, ?Hv', ?Hps', ?IH; auto.
    + rewrite forallb_app, Hps. cbn [forallb snd]. now rewrite Hv.
Qed.

Lemma build_object_values (P : value -> bool) ms :
  forallb (fun kv => P (snd kv)) ms = true ->
  forallb (fun kv => P (snd kv)) (build_object ms) = true.
Proof.
  unfold build_object.
  generalize (eq_refl : forallb (fun kv => P (snd kv)) (@nil (string * value)) = true).
  generalize (@nil (string * value)). induction ms as [| kv ms IH]; intros acc Hacc Hms.
  - exact Hacc.
  - cbn [forallb] in Hms. apply andb_prop in Hms as [Hkv Hms].
    cbn [fold_left]. apply IH; [| assumption]. now apply define_property_values.
Qed.

(** Every value that the parser returns is canonical. *)
Lemma parse_canonical fuel :
  (forall l v r, parse_value fuel l = Some (v, r) -> canonical v = true)
  /\ (forall l vs r, parse_elements fuel l = Some (vs, r) -> forallb canonical vs = true)
  /\ (forall l ms r, parse_members fuel l = Some (ms, r) ->
                     forallb (fun kv => canonical (snd kv)) ms = true).
Proof.
  induction fuel as [| fuel (IHv & IHe & IHm)]; [repeat split; discriminate |].
  repeat split.
  - intros l v r. cbn [parse_value]. destruct (skip_ws l) as [| c r0]; [discriminate |].
    destruct (Ascii.eqb c "n").
    { destruct (expect "ull" r0); [| discriminate]. now intros [= <- <-]. }
    destruct (Ascii.eqb c "t").
    { destruct (expect "rue" r0); [| discriminate]. now intros [= <- <-]. }
    destruct (Ascii.eqb c "f").
    { destruct (expect "alse" r0); [| discriminate]. now intros [= <- <-]. }
    destruct (Ascii.eqb c "034").
    { destruct (parse_chars r0) as [[s r1] |]; [| discriminate]. now intros [= <- <-]. }
    destruct (Ascii.eqb c "[").
    { destruct (skip_ws r0) as [| c' r1]; [discriminate |].
      destruct (Ascii.eqb c' "]"); [now intros [= <- <-] |].
      destruct (parse_elements fuel r0) as [[vs r2] |] eqn:E; [| discriminate].
      intros [= <- <-]. cbn [canonical]. now apply (IHe _ _ _ E). }
    destruct (Ascii.eqb c "{").
    { destruct (skip_ws r0) as [| c' r1]; [discriminate |].
      destruct (Ascii.eqb c' "}"); [now intros [= <- <-] |].
      destruct (parse_members fuel r0) as [[ms r2] |] eqn:E; [| discriminate].
      intros [= <- <-]. cbn [canonical].
      rewrite build_object_keys. apply build_object_values. now apply (IHm _ _ _ E). }
    destruct (parse_number (c :: r0)) as [[x r1] |] eqn:E; [| discriminate].
    intros [= <- <-]. cbn [canonical]. now apply (parse_number_canonical _ _ _ E).
  - intros l vs r. cbn [parse_elements].
    destruct (parse_value fuel l) as [[v r0] |] eqn:E; [| discriminate].
    cbn [mbind option_bind]. destruct (skip_ws r0) as [| c r1]; [discriminate |].
    destruct (Ascii.eqb c ",").
    { destruct (parse_elements fuel r1) as [[vs' r2] |] eqn:E'; [| discriminate].
      intros [= <- <-]. cbn [forallb].
      now rewrite (IHv _ _ _ E), (IHe _ _ _ E'). }
    destruct (Ascii.eqb c "]"); [| discriminate].
    intros [= <- <-]. cbn [forallb]. now rewrite (IHv _ _ _ E).
  - intros l ms r. cbn [parse_members].
    destruct (skip_ws l) as [| c r0]; [discriminate |].
    destruct (Ascii.eqb c "034"); [| discriminate].
    destruct (parse_chars r0) as [[k r1] |]; [| discriminate].
    cbn [mbind option_bind]. destruct (skip_ws r1) as [| c1 r2]; [discriminate |].
    destruct (Ascii.eqb c1 ":"); [| discriminate].
    destruct (parse_value fuel r2) as [[v r3] |] eqn:E; [| discriminate].
    cbn [mbind option_bind]. destruct (skip_ws r3) as [| c3 r4]; [discriminate |].
    destruct (Ascii.eqb c3 ",").
    { destruct (parse_members fuel r4) as [[ms' r5] |] eqn:E'; [| discriminate].
      intros [= <- <-]. cbn [forallb snd].
      now rewrite (IHv _ _ _ E), (IHm _ _ _ E'). }
    destruct (Ascii.eqb c3 "}"); [| discriminate].
    intros [= <- <-]. cbn [forallb snd]. now rewrite (IHv _ _ _ E).
Qed.

(** The canonical values are the values that [JSON.parse] returns. *)
Lemma JSON_parse_canonical text v : JSON_parse text = Some v -> canonical v = true.
Proof.
  unfold JSON_parse.
  destruct (parse_value _ _) as [[v' r] |] eqn:E; [| discriminate].
  cbn [mbind option_bind]. destruct (skip_ws r); [| discriminate].
  intros [= <-]. now apply (proj1 (parse_canonical _) _ _ _ E).
Qed.

Lemma canonical_image v :
  canonical v = true <-> exists text, JSON_parse text = Some v.
Proof.
  split.
  - intros H. exists (JSON_stringify v). now apply JSON_parse_stringify.
  - intros [text H]. now apply (JSON_parse_canonical text).
Qed.

(** **** [trim] *)

Lemma find_none_all {A} (f : A -> bool) l :
  (forall x, In x l -> f x = false) -> List.find f l = None.
Proof.
  induction l as [| x l IH]; intros H; [reflexivity |]. simpl.
  rewrite (H x (or_introl eq_refl)). apply IH. intros y Hy. apply H. now right.
Qed.

Lemma starts_with_app p l x : starts_with p l = true -> starts_with p (l ++ x) = true.
Proof.
  revert l. induction p as [| a p IH]; intros [| b l]; simpl; try easy.
  intros H. apply andb_prop in H as [-> H]. simpl. now apply IH.
Qed.

Lemma strip_suffix pats fuel l :
  exists removed, l = removed ++ strip pats fuel l.
Proof.
  revert l. induction fuel as [| fuel IH]; intros l; simpl.
  - now exists [].
  - destruct (List.find _ pats) as [p |]; [| now exists []].
    destruct (IH (skipn (length p) l)) as [removed E].
    exists (firstn (length p) l ++ removed).
    rewrite <- app_assoc, <- E. symmetry. apply firstn_skipn.
Qed.

Lemma strip_clean pats :
  Forall (fun p => p <> []) pats ->
  forall fuel l, (length l <= fuel)%nat ->
  List.find (fun p => starts_with p (strip pats fuel l)) pats = None.
Proof.
  intros Hpats. induction fuel as [| fuel IH]; intros l Hlen.
  - destruct l; [| simpl in Hlen; lia]. simpl.
    apply find_none_all. intros p Hp.
    rewrite List.Forall_forall in Hpats. specialize (Hpats p Hp).
    destruct p; [congruence | reflexivity].
  - simpl. destruct (List.find (fun p => starts_with p l) pats) as [p |] eqn:E;
      [| exact E].
    apply find_some in E as [Hin Hp]. apply IH.
    rewrite List.Forall_forall in Hpats. specialize (Hpats p Hin).
    destruct p as [| a p]; [congruence |].
    destruct l as [| b l]; [discriminate |].
    simpl. rewrite length_skipn. simpl in Hlen. lia.
Qed.

Lemma WhiteSpace_nonempty : Forall (fun p => p <> []) WhiteSpace.
Proof. repeat constructor; discriminate. Qed.

Lemma WhiteSpace_rev_nonempty : Forall (fun p => p <> []) (map (@rev ascii) WhiteSpace).
Proof. repeat constructor; discriminate. Qed.

(** No white space is left at either end of [trim s]. *)
Lemma trim_clean s :
  List.find (fun p => starts_with p (bytes (trim s))) WhiteSpace = None
  /\ List.find (fun p => starts_with p (rev (bytes (trim s))))
               (map (@rev ascii) WhiteSpace) = None.
Proof.
  unfold trim. rewrite bytes_of_bytes. unfold trimEnd_bytes.
  set (t := trimStart_bytes (bytes s)). split.
  - destruct (strip_suffix (map (@rev ascii) WhiteSpace) (length t) (rev t))
      as [removed E].
    apply find_none_all. intros p Hp.
    pose proof (strip_clean WhiteSpace WhiteSpace_nonempty (length (bytes s)) (bytes s)
                  (Nat.le_refl _)) as Hstart.
    fold (trimStart_bytes (bytes s)) in Hstart. fold t in Hstart.
    pose proof (find_none _ _ Hstart p Hp) as Hp'. simpl in Hp'.
    destruct (starts_with p (rev (strip _ (length t) (rev t)))) eqn:Hs; [| reflexivity].
    apply (starts_with_app _ _ (rev removed)) in Hs.
    rewrite <- rev_app_distr, <- E, rev_involutive in Hs. congruence.
  - rewrite rev_involutive. apply strip_clean; [apply WhiteSpace_rev_nonempty |].
    now rewrite length_rev.
Qed.

Lemma starts_with_refl p l : starts_with p (p ++ l) = true.
Proof.
  induction p as [| a p IH]; [reflexivity |]. cbn [app starts_with].
  now rewrite Ascii.eqb_refl, IH.
Qed.

Lemma starts_with_comparable p q l :
  starts_with p (q ++ l) = true -> starts_with p q = true \/ starts_with q p = true.
Proof.
  revert q. induction p as [| a p IH]; intros q; [now left |].
  destruct q as [| b q]; [now right |]. cbn [app starts_with].
  intros H. apply andb_prop in H as [Hab H]. apply Ascii.eqb_eq in Hab as ->.
  rewrite Ascii.eqb_refl. cbn [andb]. now apply IH.
Qed.

Lemma list_ascii_eqb_eq p q : list_ascii_eqb p q = true -> p = q.
Proof.
  unfold list_ascii_eqb. revert q. induction p as [| a p IH]; intros [| b q]; simpl; try easy.
  intros H. apply andb_prop in H as [H1 H2].
  apply andb_prop in H1 as [Hab H1]. apply andb_prop in H2 as [_ H2].
  apply Ascii.eqb_eq in Hab as ->. f_equal. apply IH. now rewrite H1, H2.
Qed.

(** No white space sequence starts another one. *)
Lemma WhiteSpace_prefix_free p q :
  In p WhiteSpace -> In q WhiteSpace -> starts_with p q = true -> p = q.
Proof.
  assert (forallb (fun p => forallb (fun q => implb (starts_with p q) (list_ascii_eqb p q))
                                    WhiteSpace) WhiteSpace = true) as H
      by (vm_compute; reflexivity).
  rewrite forallb_forall in H. intros Hp Hq Hpq.
  specialize (H p Hp). rewrite forallb_forall in H. specialize (H q Hq).
  rewrite Hpq in H. now apply list_ascii_eqb_eq.
Qed.

Lemma strip_whitespace ps :
  Forall (fun p => In p WhiteSpace) ps ->
  forall fuel, (length (concat ps) <= fuel)%nat ->
  strip WhiteSpace fuel (concat ps) = [].
Proof.
  induction 1 as [| p ps Hp _ IH]; intros fuel Hfuel.
  - destruct fuel; reflexivity.
  - cbn [concat] in *. rewrite length_app in Hfuel.
    assert (p <> []) as Hne.
    { pose proof WhiteSpace_nonempty as Hall. rewrite List.Forall_forall in Hall.
      now apply Hall. }
    destruct fuel as [| fuel]; [destruct p; [congruence | simpl in Hfuel; lia] |].
    cbn [strip].
    destruct (List.find (fun q => starts_with q (p ++ concat ps)) WhiteSpace)
      as [q |] eqn:E.
    + apply find_some in E as [Hq Hstart].
      assert (q = p) as ->.
      { apply starts_with_comparable in Hstart as [Hqp | Hpq].
        - now apply WhiteSpace_prefix_free.
        - symmetry. now apply WhiteSpace_prefix_free. }
      rewrite skipn_app, skipn_all, Nat.sub_diag. cbn [skipn app].
      apply IH. destruct p; [congruence | simpl in Hfuel; lia].
    + apply find_none with (x := p) in E; [| assumption].
      cbn beta in E. now rewrite starts_with_refl in E.
Qed.

(** A string of white space code points only is empty after [trim]. *)
Lemma trim_whitespace_only s : whitespace_only s -> trim s = "".
Proof.
  intros (ps & Hps & E). unfold trim, trimStart_bytes. rewrite E.
  now rewrite strip_whitespace.
Qed.

(** **** Conversions to string *)

Lemma sequence_throws {A} (l : list (completion A)) m :
  sequence l = Throw m -> In (Throw m) l.
Proof.
  induction l as [| c l IH]; [discriminate |].
  simpl. unfold mbind, completion_bind. destruct c as [a | m'].
  - destruct (sequence l) as [r | m'']; [discriminate |]. intros [= ->].
    right. now apply IH.
  - intros [= ->]. now left.
Qed.

(** The one error a conversion to string throws. *)
Lemma ToString_throws v m : ToString v = Throw m -> m = TypeError_primitive.
Proof.
  induction v as [| b | n | s | l IH | ps IH] using value_ind;
    cbn [ToString]; try discriminate.
  - unfold mbind, completion_bind.
    destruct (sequence _) as [parts | m'] eqn:E; [discriminate |].
    intros [= ->]. apply sequence_throws in E.
    apply in_map_iff in E as (e & He & Hin).
    rewrite List.Forall_forall in IH. specialize (IH e Hin).
    destruct e; try discriminate; apply IH; exact He.
  - destruct (own_property ps "toString"); [now intros [= <-] | discriminate].
Qed.

(** **** Numerals determine numbers *)

Lemma Number_toString_reads x text :
  well_formed x = true -> represented x = true ->
  Number_toString x = text -> parse_number (bytes text) = Some (x, []).
Proof.
  intros Hwf Hrep <-. rewrite <- (app_nil_r (bytes _)).
  now apply parse_number_toString.
Qed.

Lemma Number_toString_inj x y :
  well_formed x = true -> represented x = true ->
  well_formed y = true -> represented y = true ->
  Number_toString x = Number_toString y -> x = y.
Proof.
  intros Hx Hx' Hy Hy' E.
  pose proof (Number_toString_reads x _ Hx Hx' E) as H1.
  pose proof (Number_toString_reads y _ Hy Hy' eq_refl) as H2.
  congruence.
Qed.

(** **** Parts of a parsed value *)



(** **** [encodeURIComponent] loses nothing *)

Lemma unescape_encode_byte c rest :
  unescape (encode_byte c ++ rest) = c :: unescape rest.
Proof. destruct c as [[] [] [] [] [] [] [] []]; reflexivity. Qed.

Lemma unescape_encoded l : unescape (flat_map encode_byte l) = l.
Proof.
  induction l as [| c l IH]; [reflexivity |].
  cbn [flat_map]. now rewrite unescape_encode_byte, IH.
Qed.

Lemma bytes_inj s t : bytes s = bytes t -> s = t.
Proof. intros E. rewrite <- (of_bytes_bytes s), <- (of_bytes_bytes t). now rewrite E. Qed.

Lemma encodeURIComponent_inj s t :
  encodeURIComponent s = encodeURIComponent t -> s = t.
Proof.
  unfold encodeURIComponent. intros E. apply (f_equal bytes) in E.
  rewrite !bytes_of_bytes in E. apply (f_equal unescape) in E.
  rewrite !unescape_encoded in E. now apply bytes_inj.
Qed.

Lemma append_inv_head a x y : a +:+ x = a +:+ y -> x = y.
Proof.
  intros E. apply (f_equal bytes) in E. rewrite !bytes_app in E.
  apply app_inv_head in E. now apply bytes_inj.
Qed.

Lemma append_inv_tail b x y : x +:+ b = y +:+ b -> x = y.
Proof.
  intros E. apply (f_equal bytes) in E. rewrite !bytes_app in E.
  apply app_inv_tail in E. now apply bytes_inj.
Qed.

(** **** What [trim] removes *)






(** **** What [encodeURIComponent] changes *)

Lemma length_encoded l :
  length (flat_map encode_byte l)
  = (length l + 2 * length (List.filter (fun c => negb (uriUnreserved c)) l))%nat.
Proof.
  induction l as [| c l IH]; [reflexivity |].
  cbn [flat_map List.filter]. rewrite length_app, IH. unfold encode_byte.
  destruct (uriUnreserved c); cbn [negb length percent_encode]; lia.
Qed.

Lemma encoded_unreserved l :
  forallb uriUnreserved l = true -> flat_map encode_byte l = l.
Proof.
  induction l as [| c l IH]; [reflexivity |].
  cbn [forallb flat_map]. intros H. apply andb_prop in H as [Hc Hl].
  unfold encode_byte at 1. rewrite Hc. cbn [app]. now rewrite IH.
Qed.

Lemma filter_nil_forallb {A} (f : A -> bool) l :
  List.filter (fun c => negb (f c)) l = [] -> forallb f l = true.
Proof.
  induction l as [| c l IH]; [reflexivity |].
  cbn [List.filter forallb]. destruct (f c); cbn [negb andb]; [exact IH | discriminate].
Qed.

End JSFacts.

(** ** Properties of the handler *)

Module WeatherFacts.
Import JS Weather JSFacts.

(** Opens the [try] statement, and splits on the conversions to string
    of branch 7a; [tac] closes the cases in which one of them throws. *)
Ltac open_try :=
  unfold try_catch, try_block, mbind, completion_bind, ToPropertyKey.

Tactic Notation "split_conversions" tactic(tac) :=
  repeat match goal with
         | |- context [match ToString ?c with _ => _ end] =>
             destruct (ToString c); [| tac]
         end.

(** *** Programs and their runs *)

Lemma run_always {A} (P : A -> Prop) upstream (p : prog A) :
  always P p -> P (fst (run upstream p)).
Proof.
  induction p as [a | args k IH | url k IH]; simpl; intros Hp.
  - exact Hp.
  - destruct (run upstream k) as [a t] eqn:E. simpl in *. auto.
  - specialize (IH (upstream url) (Hp (upstream url))).
    destruct (run upstream (k (upstream url))) as [a t]. exact IH.
Qed.

Lemma try_block_headers response rest :
  try_block response = Normal rest ->
  always (fun r => headers r = cors_headers) rest.
Proof.
  open_try.
  destruct (json response) as [data | m]; [| discriminate].
  destruct (negb (ok response)).
  - split_conversions discriminate.
    intros [= <-]. reflexivity.
  - intros [= <-]. reflexivity.
Qed.

Lemma handler_headers event env :
  always (fun r => headers r = cors_headers) (handler event env).
Proof.
  unfold handler.
  destruct (String.eqb (httpMethod event) "OPTIONS"); [reflexivity |].
  destruct (negb (String.eqb (httpMethod event) "GET")); [reflexivity |].
  cbv zeta.
  destruct (not_ _ || _); [reflexivity |].
  destruct (not_ (WEATHER_API_KEY env)); [reflexivity |].
  intros [response | m]; unfold try_catch, mbind, completion_bind; [| reflexivity].
  destruct (try_block response) as [rest | m] eqn:E; [| reflexivity].
  eapply try_block_headers; eauto.
Qed.

Lemma valid_city_tests event city :
  valid_city event city ->
  not_ (city_of event) || String.eqb (trim (default "" (city_of event))) "" = false.
Proof.
  intros [-> Hblank]. simpl.
  apply orb_false_iff. split; apply String.eqb_neq; [| exact Hblank].
  intros ->. now apply Hblank.
Qed.

Lemma key_set_test env key : key_set env key -> not_ (WEATHER_API_KEY env) = false.
Proof. intros [-> Hkey]. simpl. now apply String.eqb_neq. Qed.

Lemma try_catch_rejected message :
  try_catch (Throw message) = catch_block message.
Proof. reflexivity. Qed.

Lemma try_catch_json_rejected r message :
  json r = Throw message -> try_catch (Normal r) = catch_block message.
Proof. intros H. open_try. now rewrite H. Qed.

Lemma try_catch_success r data :
  json r = Normal data -> ok r = true ->
  try_catch (Normal r)
  = Return {| statusCode := HttpStatus 200; headers := cors_headers;
              body := JSON_stringify data |}.
Proof.
  intros Hjson Hok. open_try. now rewrite Hjson, Hok.
Qed.

Lemma try_catch_no_fetch upstream fetched :
  fetched_urls (snd (run upstream (try_catch fetched))) = [].
Proof.
  open_try.
  destruct fetched as [r | m]; [| reflexivity].
  destruct (json r) as [data | m]; [| reflexivity].
  destruct (negb (ok r)); [| reflexivity].
  split_conversions reflexivity.
  reflexivity.
Qed.

Lemma run_try_catch upstream upstream' fetched :
  run upstream (try_catch fetched) = run upstream' (try_catch fetched).
Proof.
  open_try.
  destruct fetched as [r | m]; [| reflexivity].
  destruct (json r) as [data | m]; [| reflexivity].
  destruct (negb (ok r)); [| reflexivity].
  split_conversions reflexivity.
  reflexivity.
Qed.

Lemma not_false_key_set env :
  not_ (WEATHER_API_KEY env) = false -> exists key, key_set env key.
Proof.
  unfold key_set. destruct (WEATHER_API_KEY env) as [key |]; [| discriminate].
  simpl. intros H. exists key. split; [reflexivity | now apply String.eqb_neq].
Qed.

Lemma statusMap_get_own key n :
  assoc key statusMap = Some n -> In n [404; 401; 403; 400].
Proof.
  unfold statusMap, assoc.
  repeat match goal with
         | |- context [String.eqb ?k key] => destruct (String.eqb k key)
         end; intros [= <-]; simpl; tauto.
Qed.

Lemma statusMap_get_not_200 key :
  default (HttpStatus 502) (statusMap_get key) <> HttpStatus 200.
Proof.
  unfold statusMap_get. destruct (assoc key statusMap) as [n |] eqn:E.
  - apply statusMap_get_own in E. simpl in *. intros [= ->]. lia.
  - destruct (existsb _ _); discriminate.
Qed.

(** The own properties of [statusMap]. *)
Lemma statusMap_table :
  assoc "1006" statusMap = Some 404 /\ assoc "2006" statusMap = Some 401
  /\ assoc "2007" statusMap = Some 403 /\ assoc "2008" statusMap = Some 403
  /\ assoc "9000" statusMap = Some 400 /\ assoc "9001" statusMap = Some 400
  /\ forall key,
       ~ In key ["1006"; "2006"; "2007"; "2008"; "9000"; "9001"] ->
       assoc key statusMap = None.
Proof.
  repeat (split; [reflexivity |]). intros key H. unfold statusMap, assoc.
  repeat match goal with
         | |- context [String.eqb ?k key] =>
             destruct (String.eqb_spec k key); [subst key; elim H; simpl; tauto |]
         end.
  reflexivity.
Qed.

Lemma encode_byte_chars c :
  Forall (fun b => uriUnreserved b = true \/ b = "%"%char) (encode_byte c).
Proof.
  assert (forallb (fun b => uriUnreserved b || Ascii.eqb b "%") (encode_byte c) = true)
    as H by (destruct c as [[] [] [] [] [] [] [] []]; vm_compute; reflexivity).
  apply List.Forall_forall. intros b Hb.
  rewrite forallb_forall in H. specialize (H b Hb).
  apply orb_prop in H as [H | H]; [now left | right].
  now apply Ascii.eqb_eq.
Qed.

Lemma encodeURIComponent_chars s :
  Forall (fun b => uriUnreserved b = true \/ b = "%"%char)
         (bytes (encodeURIComponent s)).
Proof.
  unfold encodeURIComponent. rewrite bytes_of_bytes.
  induction (bytes s) as [| c l IH]; simpl; [constructor |].
  apply Forall_app. split; [apply encode_byte_chars | exact IH].
Qed.

(** *** The branches before the upstream call *)

(** C7: every response the handler returns, on every branch (204, 200
    and every error status, whatever the upstream does), carries the
    same three headers: Access-Control-Allow-Origin: *,
    Access-Control-Allow-Headers: Content-Type and
    Content-Type: application/json. *)
Theorem cors_headers_on_every_response upstream env event :
  headers (fst (invoke upstream env event))
  = [ ("Access-Control-Allow-Origin", "*");
      ("Access-Control-Allow-Headers", "Content-Type");
      ("Content-Type", "application/json") ].
Proof.
  unfold invoke. apply (run_always (fun r => headers r = cors_headers)).
  apply handler_headers.
Qed.


(** C5: a GET request with a valid city, when WEATHER_API_KEY is not
    defined (or is the empty string), gets status 500 with the body
    {error: "Server configuration error: API key not set."}; the
    handler returns this response, logs one line and does not call the
    upstream. *)
Theorem missing_key_is_500 upstream env event city :
  httpMethod event = "GET" -> valid_city event city ->
  WEATHER_API_KEY env = None \/ WEATHER_API_KEY env = Some "" ->
  invoke upstream env event
  = ({| statusCode := HttpStatus 500;
        headers := cors_headers;
        body := JSON_stringify
                  (JObject [("error", JString "Server configuration error: API key not set.")]) |},
     [Logged ["WEATHER_API_KEY environment variable is not set."]]).
Proof.
  intros Hget Hcity Hkey. unfold invoke, handler. rewrite Hget.
  cbn [String.eqb Ascii.eqb Bool.eqb negb]. cbv zeta. fold (city_of event).
  rewrite (valid_city_tests _ _ Hcity).
  destruct Hkey as [-> | ->]; reflexivity.
Qed.

(** C4: a GET request whose query parameters are absent (null), lack
    the key city, or hold a city that is made of white space only or,
    more generally, is empty after trimming, gets status 400 with a
    JSON body that has an error and an example field; nothing is
    logged or fetched. *)
Theorem blank_city_is_400 upstream env event :
  httpMethod event = "GET" ->
  match queryStringParameters event with
  | None => True
  | Some params =>
      match params !! "city" with
      | None => True
      | Some city => whitespace_only city \/ trim city = ""
      end
  end ->
  let answer :=
    JObject [("error", JString "Missing required query parameter: city");
             ("example", JString "/.netlify/functions/weather?city=Boston")] in
  invoke upstream env event
  = ({| statusCode := HttpStatus 400; headers := cors_headers;
        body := JSON_stringify answer |}, [])
  /\ JSON_parse (body (fst (invoke upstream env event))) = Some answer.
Proof.
  intros Hget Hcity answer.
  assert (invoke upstream env event
          = ({| statusCode := HttpStatus 400; headers := cors_headers;
                body := JSON_stringify answer |}, [])) as E.
  { assert (city_of event = None
            \/ exists city, city_of event = Some city /\ trim city = "") as Hblank.
    { unfold city_of. destruct (queryStringParameters event) as [params |];
        [| left; reflexivity].
      change (default ∅ (Some params)) with params.
      destruct (params !! "city") as [city |]; [right | left; reflexivity].
      exists city. split; [reflexivity |].
      destruct Hcity as [Hcity | Hcity]; [now apply trim_whitespace_only | exact Hcity]. }
    unfold invoke, handler. rewrite Hget.
    cbn [String.eqb Ascii.eqb Bool.eqb negb]. cbv zeta. fold (city_of event).
    destruct Hblank as [-> | (city & -> & Hblank)]; [reflexivity |].
    change (default "" (Some city)) with city. rewrite Hblank.
    now rewrite orb_true_r. }
  split; [exact E |]. rewrite E. reflexivity.
Qed.

(** *** Past validation

    The request is a GET with a valid city and the key is set: the
    handler fetches. *)

Section Fetching.

Variable upstream : string -> completion UpstreamResponse.
Variable env : Env.
Variable event : Event.
Variables city key : string.
Hypothesis Hget : httpMethod event = "GET".
Hypothesis Hcity : valid_city event city.
Hypothesis Hkey : key_set env key.

Lemma handler_fetches :
  handler event env = Fetch (weatherUrl key city) try_catch.
Proof.
  unfold handler. rewrite Hget. cbn [String.eqb Ascii.eqb Bool.eqb negb].
  cbv zeta. fold (city_of event).
  rewrite (valid_city_tests _ _ Hcity), (key_set_test _ _ Hkey).
  destruct Hcity as [-> _], Hkey as [-> _]. reflexivity.
Qed.

Lemma invoke_fetches :
  invoke upstream env event
  = (let (a, t) := run upstream (try_catch (upstream (weatherUrl key city))) in
     (a, Fetched (weatherUrl key city) :: t)).
Proof.
  unfold invoke.
  now rewrite handler_fetches.
Qed.

(** C6: when fetch rejects, or the response body does not parse as
    JSON, the handler returns status 500 with the body
    {error: "Failed to fetch weather data. Please try again later.",
     detail: <the message of the error>}; the upstream was called once
    (no retry), the failure is logged once, and the body is
    well-formed JSON. *)
Theorem transport_failure_is_500 message :
  upstream (weatherUrl key city) = Throw message
  \/ (exists r, upstream (weatherUrl key city) = Normal r /\ json r = Throw message) ->
  let failure :=
    JObject [("error", JString "Failed to fetch weather data. Please try again later.");
             ("detail", JString message)] in
  invoke upstream env event
  = ({| statusCode := HttpStatus 500; headers := cors_headers;
        body := JSON_stringify failure |},
     [Fetched (weatherUrl key city);
      Logged ["Unexpected error fetching weather data:"; message]])
  /\ JSON_parse (body (fst (invoke upstream env event))) = Some failure.
Proof.
  intros Hfail failure.
  assert (try_catch (upstream (weatherUrl key city)) = catch_block message) as Hcatch.
  { destruct Hfail as [-> | (r & -> & Hjson)];
      [apply try_catch_rejected | now apply try_catch_json_rejected]. }
  assert (invoke upstream env event
          = ({| statusCode := HttpStatus 500; headers := cors_headers;
                body := JSON_stringify failure |},
             [Fetched (weatherUrl key city);
              Logged ["Unexpected error fetching weather data:"; message]])) as E.
  { rewrite invoke_fetches, Hcatch. reflexivity. }
  split; [exact E |]. rewrite E. cbn [fst body].
  apply JSON_parse_stringify. reflexivity.
Qed.


(** C3: for a GET request with a valid city and a set API key, the one
    URL the handler fetches is the endpoint followed by the query
    string key=<secret>&q=<encoded trimmed city>&days=7&aqi=yes; the
    trimmed city has no white space left at either end, its encoding
    holds unreserved characters and percent signs only, and the city
    "New York" is encoded as New%20York. *)
Theorem upstream_url_shape :
  fetched_urls (snd (invoke upstream env event))
  = ["https://api.weatherapi.com/v1/forecast.json?"
     +:+ ("key=" +:+ key +:+ "&q=" +:+ encodeURIComponent (trim city)
          +:+ "&days=7&aqi=yes")]
  /\ (List.find (fun p => starts_with p (bytes (trim city))) WhiteSpace = None
      /\ List.find (fun p => starts_with p (rev (bytes (trim city))))
                   (map (@rev ascii) WhiteSpace) = None)
  /\ Forall (fun b => uriUnreserved b = true \/ b = "%"%char)
            (bytes (encodeURIComponent (trim city)))
  /\ encodeURIComponent (trim "New York") = "New%20York".
Proof.
  split; [| split; [apply trim_clean | split]].
  - rewrite invoke_fetches.
    pose proof (try_catch_no_fetch upstream (upstream (weatherUrl key city))) as H.
    destruct (run upstream (try_catch (upstream (weatherUrl key city)))) as [a t].
    simpl in H. cbn [snd fetched_urls flat_map app]. fold (fetched_urls t).
    rewrite H. reflexivity.
  - apply encodeURIComponent_chars.
  - reflexivity.
Qed.

(** C10: when the upstream answers with a 2xx status, the handler
    returns 200 and forwards the parsed body, whatever the body holds
    (an error object included); a status other than 200 is returned
    only when the upstream status is not a success. *)
Theorem only_the_status_selects_translation r data :
  upstream (weatherUrl key city) = Normal r -> json r = Normal data ->
  (ok r = true ->
   fst (invoke upstream env event)
   = {| statusCode := HttpStatus 200; headers := cors_headers;
        body := JSON_stringify data |})
  /\ (ok r = false ->
      statusCode (fst (invoke upstream env event)) <> HttpStatus 200).
Proof.
  intros Hup Hjson.
  rewrite invoke_fetches, Hup. split; intros Hok.
  - now rewrite (try_catch_success _ _ Hjson Hok).
  - open_try. rewrite Hjson, Hok. cbn [negb].
    split_conversions discriminate.
    cbn. apply statusMap_get_not_200.
Qed.

(** What branch 7a returns when the conversions to string succeed and
    the key of the code is not a member of [Object.prototype]. *)
Lemma upstream_error_translation r data code_text message_text :
  upstream (weatherUrl key city) = Normal r ->
  ok r = false -> json r = Normal data ->
  let errorCode :=
    nullish_or (optional_get (optional_get (Some data) "error") "code")
               (JString "unknown") in
  let errorMessage :=
    nullish_or (optional_get (optional_get (Some data) "error") "message")
               (JString "Unknown error from WeatherAPI.") in
  ToString errorCode = Normal code_text ->
  ToString errorMessage = Normal message_text ->
  existsb (String.eqb code_text) Object_prototype = false ->
  invoke upstream env event
  = ({| statusCode := HttpStatus (default 502 (assoc code_text statusMap));
        headers := cors_headers;
        body := JSON_stringify (JObject [("error", errorMessage); ("code", errorCode)]) |},
     [Fetched (weatherUrl key city);
      Logged ["WeatherAPI error [" +:+ code_text +:+ "]: " +:+ message_text]]).
Proof.
  intros Hup Hok Hjson errorCode errorMessage Hcode Hmsg Hproto.
  rewrite invoke_fetches, Hup.
  open_try. rewrite Hjson, Hok. cbn [negb]. fold errorCode errorMessage.
  rewrite Hcode, Hmsg. unfold statusMap_get. rewrite Hproto.
  destruct (assoc code_text statusMap); reflexivity.
Qed.

End Fetching.

(** *** A code that names an inherited member *)

(** C1: the claim says that every code outside the table is mapped to
    502.  On the upstream answer 400 with the body
    {error: {code: "constructor", message: "No such code."}} the lookup
    [statusMap[errorCode]] finds the member [constructor] that the
    literal inherits from [Object.prototype]: the status returned is
    that member and not 502. *)
Theorem inherited_member_becomes_status :
  fst (invoke
         (fun _ =>
            Normal {| status_of := 400;
                      json := Normal
                                (JObject
                                   [("error",
                                     JObject [("code", JString "constructor");
                                              ("message", JString "No such code.")])]) |})
         {| WEATHER_API_KEY := Some "k" |}
         {| httpMethod := "GET";
            queryStringParameters := Some {[ "city" := "London" ]} |})
  = {| statusCode := PrototypeMember "constructor";
       headers := cors_headers;
       body := JSON_stringify
                 (JObject [("error", JString "No such code.");
                           ("code", JString "constructor")]) |}.
Proof. vm_compute. reflexivity. Qed.

(** *** The key and the response *)



End WeatherFacts.

(** ** More on the handler: every branch, and what holds on all of them *)

Module Outcomes.
Import JS Weather JSFacts WeatherFacts.

(** *** How an invocation can go *)

(** The five ways the handler starts, each with the test that selects it. *)
Lemma handler_cases event env :
  (httpMethod event = "OPTIONS"
   /\ handler event env
      = Return {| statusCode := HttpStatus 204; headers := cors_headers; body := "" |})
  \/ (httpMethod event <> "OPTIONS" /\ httpMethod event <> "GET"
      /\ handler event env
         = Return {| statusCode := HttpStatus 405; headers := cors_headers;
                     body := JSON_stringify
                               (JObject [("error", JString "Method not allowed. Use GET.")]) |})
  \/ (httpMethod event = "GET"
      /\ handler event env
         = Return {| statusCode := HttpStatus 400; headers := cors_headers;
                     body := JSON_stringify
                               (JObject
                                  [("error", JString "Missing required query parameter: city");
                                   ("example", JString "/.netlify/functions/weather?city=Boston")]) |})
  \/ (httpMethod event = "GET"
      /\ handler event env
         = ConsoleError ["WEATHER_API_KEY environment variable is not set."]
             (Return {| statusCode := HttpStatus 500; headers := cors_headers;
                        body := JSON_stringify
                                  (JObject [("error", JString "Server configuration error: API key not set.")]) |}))
  \/ exists city key,
       httpMethod event = "GET" /\ valid_city event city /\ key_set env key
       /\ handler event env = Fetch (weatherUrl key city) try_catch.
Proof.
  unfold handler.
  destruct (String.eqb_spec (httpMethod event) "OPTIONS") as [Hopt | Hopt]; [now left |].
  destruct (String.eqb_spec (httpMethod event) "GET") as [Hget | Hget];
    [| right; now left].
  cbn [negb]. cbv zeta. fold (city_of event).
  destruct (not_ (city_of event) || _) eqn:Hcity; [right; right; now left |].
  apply orb_false_iff in Hcity as [Hsome Hblank].
  destruct (city_of event) as [city |] eqn:Ecity; [| discriminate].
  change (default "" (Some city)) with city in *.
  destruct (not_ (WEATHER_API_KEY env)) eqn:Hkey; [right; right; right; now left |].
  destruct (not_false_key_set _ Hkey) as (key & Hset).
  right; right; right; right. exists city, key.
  split; [exact Hget |]. split; [split; [exact Ecity | now apply String.eqb_neq] |].
  split; [exact Hset |]. destruct Hset as [-> _]. reflexivity.
Qed.

(** The three ways the [try] statement ends: in the [catch] block, in
    branch 7b, or in branch 7a. *)
Lemma try_catch_cases fetched :
  (exists m,
     try_catch fetched = catch_block m
     /\ (fetched = Throw m
         \/ (exists r, fetched = Normal r /\ json r = Throw m)
         \/ (exists r data,
               fetched = Normal r /\ json r = Normal data /\ ok r = false
               /\ m = TypeError_primitive
               /\ ((exists m', ToString (errorCode_of data) = Throw m')
                   \/ (exists m', ToString (errorMessage_of data) = Throw m')))))
  \/ (exists r data,
        fetched = Normal r /\ json r = Normal data /\ ok r = true
        /\ try_catch fetched
           = Return {| statusCode := HttpStatus 200; headers := cors_headers;
                       body := JSON_stringify data |})
  \/ (exists r data code_text message_text,
        fetched = Normal r /\ json r = Normal data /\ ok r = false
        /\ ToString (errorCode_of data) = Normal code_text
        /\ ToString (errorMessage_of data) = Normal message_text
        /\ try_catch fetched
           = ConsoleError ["WeatherAPI error [" +:+ code_text +:+ "]: " +:+ message_text]
               (Return {| statusCode := default (HttpStatus 502) (statusMap_get code_text);
                          headers := cors_headers;
                          body := JSON_stringify
                                    (JObject [("error", errorMessage_of data);
                                              ("code", errorCode_of data)]) |})).
Proof.
  destruct fetched as [r | m]; [| left; exists m; split; [reflexivity | now left]].
  destruct (json r) as [data | m] eqn:Hjson;
    [| left; exists m; split;
       [now apply try_catch_json_rejected | right; left; now exists r]].
  destruct (ok r) eqn:Hok.
  - right; left. exists r, data. repeat split; try assumption.
    now apply try_catch_success.
  - open_try. rewrite Hjson, Hok. cbn [negb].
    fold (errorCode_of data) (errorMessage_of data).
    destruct (ToString (errorCode_of data)) as [code_text | m] eqn:Hcode.
    + destruct (ToString (errorMessage_of data)) as [message_text | m] eqn:Hmsg.
      * right; right. exists r, data, code_text, message_text. now repeat split.
      * left. exists m. split; [reflexivity |]. right; right. exists r, data.
        repeat split; try assumption; [now apply (ToString_throws _ _ Hmsg) |].
        right. now exists m.
    + left. exists m. split; [reflexivity |]. right; right. exists r, data.
      repeat split; try assumption; [now apply (ToString_throws _ _ Hcode) |].
      left. now exists m.
Qed.

Lemma status_of_key code_text :
  match default (HttpStatus 502) (statusMap_get code_text) with
  | HttpStatus n => In n [404; 401; 403; 400; 502]
  | PrototypeMember name => In name Object_prototype
  end.
Proof.
  unfold statusMap_get. destruct (assoc code_text statusMap) as [n |] eqn:E.
  - apply statusMap_get_own in E. cbn [default]. simpl in *. tauto.
  - destruct (existsb _ _) eqn:Hp; cbn [default]; [| simpl; tauto].
    apply existsb_exists in Hp as (name & Hin & Heq).
    apply String.eqb_eq in Heq. now subst.
Qed.

Lemma not_prototype_member text :
  ~ In text Object_prototype -> existsb (String.eqb text) Object_prototype = false.
Proof.
  intros H. destruct (existsb _ _) eqn:E; [| reflexivity].
  apply existsb_exists in E as (name & Hin & Heq).
  apply String.eqb_eq in Heq. now subst.
Qed.


(** The two method tests, for a GET request, read off the status. *)
Lemma get_status_facts event s (P : Prop) :
  httpMethod event = "GET" ->
  s <> HttpStatus 204 -> s <> HttpStatus 405 -> (s = HttpStatus 200 -> P) ->
  (s = HttpStatus 204 <-> httpMethod event = "OPTIONS")
  /\ (s = HttpStatus 405 <-> httpMethod event <> "OPTIONS" /\ httpMethod event <> "GET")
  /\ (s = HttpStatus 200 -> P).
Proof.
  intros Hget H204 H405 H200.
  split; [split; [contradiction | rewrite Hget; discriminate] |].
  split; [split; [contradiction | now intros [_ H]] | exact H200].
Qed.

(** *** Methods other than GET and OPTIONS *)

(** X1: a request whose method is neither OPTIONS nor GET (the
    comparison is exact, so "get" in lower case is such a method) gets
    status 405 with the body {error: "Method not allowed. Use GET."},
    whatever its query parameters, the environment and the upstream
    are; nothing is logged and nothing is fetched. *)
Theorem other_methods_are_405 upstream env event :
  httpMethod event <> "OPTIONS" -> httpMethod event <> "GET" ->
  let answer := JObject [("error", JString "Method not allowed. Use GET.")] in
  invoke upstream env event
  = ({| statusCode := HttpStatus 405; headers := cors_headers;
        body := JSON_stringify answer |}, [])
  /\ JSON_parse (body (fst (invoke upstream env event))) = Some answer.
Proof.
  intros Hopt Hget answer.
  assert (invoke upstream env event
          = ({| statusCode := HttpStatus 405; headers := cors_headers;
                body := JSON_stringify answer |}, [])) as E.
  { unfold invoke, handler. apply String.eqb_neq in Hopt, Hget.
    now rewrite Hopt, Hget. }
  split; [exact E |]. rewrite E. reflexivity.
Qed.

(** *** The city *)

(** X2: of the request the handler reads the method and the city
    parameter only, and the city only up to the white space around it:
    two requests with the same method whose cities are equal after
    trimming get the same response, with the same URL fetched and the
    same lines logged, whatever other query parameters they carry. *)
Theorem only_method_and_trimmed_city_matter upstream env event1 event2 :
  httpMethod event1 = httpMethod event2 ->
  option_map trim (city_of event1) = option_map trim (city_of event2) ->
  invoke upstream env event1 = invoke upstream env event2.
Proof.
  intros Hmethod Hcity. unfold invoke, handler. rewrite <- Hmethod.
  destruct (String.eqb (httpMethod event1) "OPTIONS"); [reflexivity |].
  destruct (negb (String.eqb (httpMethod event1) "GET")); [reflexivity |].
  cbv zeta. fold (city_of event1) (city_of event2).
  assert (forall c, not_ (Some c) || String.eqb (trim c) "" = String.eqb (trim c) "")
    as Hblank.
  { intros c. cbn [not_]. destruct (String.eqb_spec c "") as [-> |]; reflexivity. }
  destruct (city_of event1) as [city1 |], (city_of event2) as [city2 |];
    try discriminate; [| reflexivity].
  injection Hcity as Htrim.
  change (default "" (Some city1)) with city1.
  change (default "" (Some city2)) with city2.
  rewrite !Hblank, <- Htrim.
  destruct (String.eqb (trim city1) ""); [reflexivity |].
  destruct (not_ (WEATHER_API_KEY env)); [reflexivity |].
  unfold weatherUrl. now rewrite Htrim.
Qed.


(** X4: for a fixed key, the URL the handler builds determines the
    trimmed city: percent-encoding maps no two cities to one query, so
    two cities give the same URL exactly when they are equal after
    trimming. *)
Theorem url_determines_city key city1 city2 :
  weatherUrl key city1 = weatherUrl key city2 <-> trim city1 = trim city2.
Proof.
  split; [| unfold weatherUrl; now intros ->].
  unfold weatherUrl. intros E.
  repeat apply append_inv_head in E.
  repeat apply append_inv_tail in E.
  now apply encodeURIComponent_inj.
Qed.

(** X5: percent-encoding leaves the letters, the digits and the marks
    - _ . ! ~ * ' ( ) as they are and writes three characters for
    every other byte: the encoded city is longer than the city by two
    characters for each such byte, and a city is sent unchanged exactly
    when it holds none. *)
Theorem encoding_changes_reserved_bytes_only s :
  (String.length (encodeURIComponent s)
   = String.length s
     + 2 * length (List.filter (fun c => negb (uriUnreserved c)) (bytes s)))%nat
  /\ (encodeURIComponent s = s <-> forallb uriUnreserved (bytes s) = true).
Proof.
  assert (String.length (encodeURIComponent s)
          = String.length s
            + 2 * length (List.filter (fun c => negb (uriUnreserved c)) (bytes s)))%nat
    as Hlen.
  { rewrite <- !length_bytes. unfold encodeURIComponent.
    rewrite bytes_of_bytes. apply length_encoded. }
  split; [exact Hlen |]. split.
  - intros E. rewrite E in Hlen. apply filter_nil_forallb.
    apply length_zero_iff_nil. lia.
  - intros H. unfold encodeURIComponent. rewrite (encoded_unreserved _ H).
    apply of_bytes_bytes.
Qed.

(** *** What is fetched and what is logged *)

(** X6: a URL is fetched only for a GET request with a valid city and
    a set key; it is then the only URL fetched, and it is the forecast
    endpoint of api.weatherapi.com followed by the key and the query:
    no request parameter chooses the host or the path. *)
Theorem fetches_only_the_forecast_endpoint upstream env event url :
  In url (fetched_urls (snd (invoke upstream env event))) ->
  fetched_urls (snd (invoke upstream env event)) = [url]
  /\ httpMethod event = "GET"
  /\ (exists city key,
        valid_city event city /\ key_set env key /\ url = weatherUrl key city)
  /\ starts_with (bytes endpoint) (bytes url) = true.
Proof.
  unfold invoke.
  destruct (handler_cases event env)
    as [[_ ->] | [(_ & _ & ->) | [[_ ->] | [[_ ->]
        | (city & key & Hget & Hcity & Hkey & ->)]]]];
    try (intros []).
  cbn [run].
  pose proof (try_catch_no_fetch upstream (upstream (weatherUrl key city))) as H.
  destruct (run upstream (try_catch (upstream (weatherUrl key city)))) as [a t].
  cbn [snd] in *. cbn [fetched_urls flat_map app]. fold (fetched_urls t). rewrite H.
  intros [<- | []]. split; [reflexivity |]. split; [exact Hget |].
  split; [now exists city, key |].
  unfold weatherUrl, endpoint.
  change ("https://api.weatherapi.com/v1/forecast.json" +:+ "?key=" +:+ key
          +:+ "&q=" +:+ encodeURIComponent (trim city) +:+ "&days=7" +:+ "&aqi=yes")
    with ("https://api.weatherapi.com/v1/forecast.json?key="
          +:+ (key +:+ "&q=" +:+ encodeURIComponent (trim city) +:+ "&days=7" +:+ "&aqi=yes")).
  rewrite bytes_app. apply starts_with_refl.
Qed.

(** X7: an invocation logs at most one line.  It logs nothing when it
    answers 200, 204 or 405, and exactly one line when it answers with
    any status other than 200, 204, 400 and 405: every failure of the
    configuration, of the transport and of the upstream is logged. *)
Theorem failures_are_logged_once upstream env event :
  let response := fst (invoke upstream env event) in
  let lines := logged_lines (snd (invoke upstream env event)) in
  (length lines <= 1)%nat
  /\ (In (statusCode response) [HttpStatus 200; HttpStatus 204; HttpStatus 405] ->
      lines = [])
  /\ (~ In (statusCode response)
           [HttpStatus 200; HttpStatus 204; HttpStatus 400; HttpStatus 405] ->
      length lines = 1%nat).
Proof.
  unfold invoke.
  destruct (handler_cases event env)
    as [[_ ->] | [(_ & _ & ->) | [[_ ->] | [[_ ->]
        | (city & key & Hget & Hcity & Hkey & ->)]]]];
    cbn [run fst snd statusCode logged_lines flat_map app length].
  1-4: repeat split; try lia; try reflexivity; simpl;
       intros H; try (exfalso; apply H; tauto);
       decompose [or] H; try discriminate; tauto.
  destruct (try_catch_cases (upstream (weatherUrl key city)))
    as [(m & -> & _) | [(r & data & _ & _ & _ & ->)
                       | (r & data & code_text & message_text & _ & _ & _ & _ & _ & ->)]];
    cbn [catch_block run fst snd statusCode logged_lines flat_map app length].
  - repeat split; try lia. simpl. intros H. decompose [or] H; try discriminate; tauto.
  - repeat split; try lia. simpl. intros H. exfalso. apply H. tauto.
  - repeat split; try lia. intros H.
    pose proof (status_of_key code_text) as Hs.
    destruct (default (HttpStatus 502) (statusMap_get code_text)) as [n | name];
      simpl in H; decompose [or] H; try discriminate; try tauto;
      match goal with E : HttpStatus _ = HttpStatus _ |- _ => injection E as <- end;
      simpl in Hs; lia.
Qed.

(** *** Statuses *)

(** X8: the status of a response is one of 200, 204, 400, 401, 403,
    404, 405, 500 and 502, or else a member inherited from
    Object.prototype (when the upstream error code names one); the
    status the upstream answered with is never passed on. *)
Theorem status_is_one_of_nine upstream env event :
  match statusCode (fst (invoke upstream env event)) with
  | HttpStatus n => In n [200; 204; 400; 401; 403; 404; 405; 500; 502]
  | PrototypeMember name => In name Object_prototype
  end.
Proof.
  unfold invoke.
  destruct (handler_cases event env)
    as [[_ ->] | [(_ & _ & ->) | [[_ ->] | [[_ ->]
        | (city & key & Hget & Hcity & Hkey & ->)]]]];
    cbn [run fst statusCode]; try (simpl; tauto).
  destruct (try_catch_cases (upstream (weatherUrl key city)))
    as [(m & -> & _) | [(r & data & _ & _ & _ & ->)
                       | (r & data & code_text & message_text & _ & _ & _ & _ & _ & ->)]];
    cbn [catch_block run fst statusCode]; try (simpl; tauto).
  pose proof (status_of_key code_text) as Hs.
  destruct (default (HttpStatus 502) (statusMap_get code_text)); [| exact Hs].
  simpl in *. tauto.
Qed.

(** X9: of the answer of the upstream the handler reads only whether
    its status is a success and what its body parses to: two upstreams
    that agree on these two get the same response and the same log,
    whatever their status numbers are. *)
Theorem upstream_status_matters_through_ok_only upstream1 upstream2 env event :
  (forall url,
     match upstream1 url, upstream2 url with
     | Normal r1, Normal r2 => ok r1 = ok r2 /\ json r1 = json r2
     | Throw m1, Throw m2 => m1 = m2
     | _, _ => False
     end) ->
  invoke upstream1 env event = invoke upstream2 env event.
Proof.
  intros H. unfold invoke.
  destruct (handler_cases event env)
    as [[_ ->] | [(_ & _ & ->) | [[_ ->] | [[_ ->]
        | (city & key & Hget & Hcity & Hkey & ->)]]]];
    try reflexivity.
  cbn [run]. specialize (H (weatherUrl key city)).
  assert (try_catch (upstream1 (weatherUrl key city))
          = try_catch (upstream2 (weatherUrl key city))) as E.
  { destruct (upstream1 _) as [r1 | m1], (upstream2 _) as [r2 | m2];
      try contradiction; [| now subst].
    destruct H as [Hok Hjson]. open_try. now rewrite Hok, Hjson. }
  rewrite E. now rewrite (run_try_catch upstream1 upstream2).
Qed.

(** X10: the status tells the client which branch answered: it is
    204 exactly for the method OPTIONS and 405 exactly for a method
    that is neither OPTIONS nor GET, and a response with status 200 is
    always a forwarded payload: the request was a GET with a valid
    city, the key was set, the upstream answered the fetched URL with
    a success, and the body is the serialization of what its body
    parsed to. *)
Theorem status_tells_the_branch upstream env event :
  let response := fst (invoke upstream env event) in
  (statusCode response = HttpStatus 204 <-> httpMethod event = "OPTIONS")
  /\ (statusCode response = HttpStatus 405
      <-> httpMethod event <> "OPTIONS" /\ httpMethod event <> "GET")
  /\ (statusCode response = HttpStatus 200 ->
      exists city key r data,
        httpMethod event = "GET" /\ valid_city event city /\ key_set env key
        /\ upstream (weatherUrl key city) = Normal r
        /\ ok r = true /\ json r = Normal data
        /\ body response = JSON_stringify data).
Proof.
  cbv zeta. unfold invoke.
  destruct (handler_cases event env)
    as [[Hopt ->] | [(Hopt & Hget & ->) | [[Hget ->] | [[Hget ->]
        | (city & key & Hget & Hcity & Hkey & ->)]]]];
    cbn [run fst statusCode body].
  - split; [tauto |]. split; [| discriminate].
    split; [discriminate | now intros [H _]].
  - split; [split; [discriminate | contradiction] |].
    split; [tauto | discriminate].
  - apply (get_status_facts event _ _ Hget); discriminate.
  - apply (get_status_facts event _ _ Hget); discriminate.
  - destruct (try_catch_cases (upstream (weatherUrl key city)))
      as [(m & -> & _) | [(r & data & Hup & Hjson & Hok & ->)
                         | (r & data & code_text & message_text & _ & _ & _ & _ & _ & ->)]];
      cbn [catch_block run fst statusCode body];
      apply (get_status_facts event _ _ Hget); try discriminate.
    + intros _. exists city, key, r, data. tauto.
    + intros E. pose proof (status_of_key code_text) as Hs.
      rewrite E in Hs. simpl in Hs. lia.
    + intros E. pose proof (status_of_key code_text) as Hs.
      rewrite E in Hs. simpl in Hs. lia.
    + intros E. now apply statusMap_get_not_200 in E.
Qed.

(** *** Bodies *)


(** *** Past validation: the answers of the upstream *)

Section UpstreamAnswers.

Variable upstream : string -> completion UpstreamResponse.
Variable env : Env.
Variable event : Event.
Variables city key : string.
Hypothesis Hget : httpMethod event = "GET".
Hypothesis Hcity : valid_city event city.
Hypothesis Hkey : key_set env key.

(** Branch 7a when the conversions succeed and the code names no
    inherited member: the status is the own property of the table, if
    there is one. *)
Lemma translation r data code_text message_text :
  upstream (weatherUrl key city) = Normal r ->
  ok r = false -> json r = Normal data ->
  ToString (errorCode_of data) = Normal code_text ->
  ToString (errorMessage_of data) = Normal message_text ->
  ~ In code_text Object_prototype ->
  invoke upstream env event
  = ({| statusCode := HttpStatus (default 502 (assoc code_text statusMap));
        headers := cors_headers;
        body := JSON_stringify
                  (JObject [("error", errorMessage_of data);
                            ("code", errorCode_of data)]) |},
     [Fetched (weatherUrl key city);
      Logged ["WeatherAPI error [" +:+ code_text +:+ "]: " +:+ message_text]]).
Proof.
  intros Hup Hok Hjson Hcode Hmsg Hproto.
  apply (upstream_error_translation upstream env event city key Hget Hcity Hkey
           r data code_text message_text Hup Hok Hjson Hcode Hmsg).
  now apply not_prototype_member.
Qed.

Lemma outside_the_table code_text :
  ~ In code_text ["1006"; "2006"; "2007"; "2008"; "9000"; "9001"] ->
  default 502 (assoc code_text statusMap) = 502.
Proof.
  intros H.
  now rewrite (proj2 (proj2 (proj2 (proj2 (proj2 (proj2 statusMap_table))))) code_text H).
Qed.

(** X12: when the upstream answers with a status that is not a
    success, and the code and the message of its error convert to
    strings, the code not to the name of a member of Object.prototype,
    the handler answers with the body {error: message, code: code} and
    the status that the table gives for the code: 404 for 1006, 401
    for 2006, 403 for 2007 and 2008, 400 for 9000 and 9001, whether
    the code is a number or its numeral in a string, and 502 for every
    other code; it logs the line WeatherAPI error [code]: message. *)
Theorem upstream_error_is_translated r data code_text message_text :
  upstream (weatherUrl key city) = Normal r ->
  ok r = false -> json r = Normal data ->
  ToString (errorCode_of data) = Normal code_text ->
  ToString (errorMessage_of data) = Normal message_text ->
  ~ In code_text Object_prototype ->
  exists status,
    invoke upstream env event
    = ({| statusCode := HttpStatus status; headers := cors_headers;
          body := JSON_stringify
                    (JObject [("error", errorMessage_of data);
                              ("code", errorCode_of data)]) |},
       [Fetched (weatherUrl key city);
        Logged ["WeatherAPI error [" +:+ code_text +:+ "]: " +:+ message_text]])
    /\ (code_text = "1006" -> status = 404)
    /\ (code_text = "2006" -> status = 401)
    /\ (code_text = "2007" -> status = 403)
    /\ (code_text = "2008" -> status = 403)
    /\ (code_text = "9000" -> status = 400)
    /\ (code_text = "9001" -> status = 400)
    /\ (~ In code_text ["1006"; "2006"; "2007"; "2008"; "9000"; "9001"] ->
        status = 502).
Proof.
  intros Hup Hok Hjson Hcode Hmsg Hproto.
  exists (default 502 (assoc code_text statusMap)).
  split; [now apply (translation r data) |].
  repeat split; try (intros ->; reflexivity). apply outside_the_table.
Qed.

(** X13: when the code of the upstream error converts to the name of
    a member that the table inherits from Object.prototype
    (constructor, toString, valueOf, hasOwnProperty, __proto__, ...),
    the lookup finds that member: the status of the response is the
    member and not a number, with the body and the log line of a
    translated error. *)
Theorem inherited_member_name_is_found r data code_text message_text :
  upstream (weatherUrl key city) = Normal r ->
  ok r = false -> json r = Normal data ->
  ToString (errorCode_of data) = Normal code_text ->
  ToString (errorMessage_of data) = Normal message_text ->
  In code_text Object_prototype ->
  invoke upstream env event
  = ({| statusCode := PrototypeMember code_text; headers := cors_headers;
        body := JSON_stringify
                  (JObject [("error", errorMessage_of data);
                            ("code", errorCode_of data)]) |},
     [Fetched (weatherUrl key city);
      Logged ["WeatherAPI error [" +:+ code_text +:+ "]: " +:+ message_text]]).
Proof.
  intros Hup Hok Hjson Hcode Hmsg Hproto.
  rewrite (invoke_fetches upstream env event city key Hget Hcity Hkey), Hup.
  open_try. rewrite Hjson, Hok. cbn [negb].
  fold (errorCode_of data) (errorMessage_of data). rewrite Hcode, Hmsg.
  assert (statusMap_get code_text = Some (PrototypeMember code_text)) as ->;
    [| reflexivity].
  simpl in Hproto. decompose [or] Hproto; try contradiction; subst code_text; reflexivity.
Qed.


(** X15: when the upstream answers with a status that is not a
    success and its body gives neither a code nor a message (it is not
    an object, it has no error object, or the two fields are missing
    or null), the handler answers 502 with the body
    {error: "Unknown error from WeatherAPI.", code: "unknown"} and logs
    the line WeatherAPI error [unknown]: Unknown error from WeatherAPI. *)
Theorem missing_error_details_default r data :
  upstream (weatherUrl key city) = Normal r ->
  ok r = false -> json r = Normal data ->
  (forall v, optional_get (optional_get (Some data) "error") "code" = Some v ->
             v = JNull) ->
  (forall v, optional_get (optional_get (Some data) "error") "message" = Some v ->
             v = JNull) ->
  invoke upstream env event
  = ({| statusCode := HttpStatus 502; headers := cors_headers;
        body := JSON_stringify
                  (JObject [("error", JString "Unknown error from WeatherAPI.");
                            ("code", JString "unknown")]) |},
     [Fetched (weatherUrl key city);
      Logged ["WeatherAPI error [unknown]: Unknown error from WeatherAPI."]]).
Proof.
  intros Hup Hok Hjson Hcode Hmsg.
  assert (errorCode_of data = JString "unknown") as Ecode.
  { unfold errorCode_of.
    destruct (optional_get (optional_get (Some data) "error") "code") as [v |];
      [now rewrite (Hcode v eq_refl) | reflexivity]. }
  assert (errorMessage_of data = JString "Unknown error from WeatherAPI.") as Emsg.
  { unfold errorMessage_of.
    destruct (optional_get (optional_get (Some data) "error") "message") as [v |];
      [now rewrite (Hmsg v eq_refl) | reflexivity]. }
  rewrite (translation r data "unknown" "Unknown error from WeatherAPI.");
    try assumption; [now rewrite Ecode, Emsg | now rewrite Ecode | now rewrite Emsg |].
  simpl. intros H. decompose [or] H; try discriminate; tauto.
Qed.

(** X16: when the upstream answers with a status that is not a
    success and the code or the message of its error cannot be
    converted to a string (an object that has a toString property of
    its own, or an array that holds one), the error thrown inside the
    try block is caught: the handler answers 500 with the body of a
    transport failure, whose detail is the message of the TypeError,
    and logs that message. *)
Theorem unconvertible_error_is_500 r data :
  upstream (weatherUrl key city) = Normal r ->
  ok r = false -> json r = Normal data ->
  (exists m, ToString (errorCode_of data) = Throw m)
  \/ (exists m, ToString (errorMessage_of data) = Throw m) ->
  invoke upstream env event
  = ({| statusCode := HttpStatus 500; headers := cors_headers;
        body := JSON_stringify
                  (JObject
                     [("error", JString "Failed to fetch weather data. Please try again later.");
                      ("detail", JString "Cannot convert object to primitive value")]) |},
     [Fetched (weatherUrl key city);
      Logged ["Unexpected error fetching weather data:";
              "Cannot convert object to primitive value"]]).
Proof.
  intros Hup Hok Hjson Hthrows.
  rewrite (invoke_fetches upstream env event city key Hget Hcity Hkey).
  destruct (try_catch_cases (upstream (weatherUrl key city)))
    as [(m & -> & Hm) | [(r' & data' & Hup' & Hjson' & Hok' & _)
                        | (r' & data' & code_text & message_text
                           & Hup' & Hjson' & _ & Hcode & Hmsg & _)]].
  - destruct Hm as [Hm | [(r' & Hup' & Hjson') | (r' & data' & _ & _ & _ & -> & _)]];
      [congruence | | reflexivity].
    rewrite Hup in Hup'. injection Hup' as <-. congruence.
  - rewrite Hup in Hup'. injection Hup' as <-. congruence.
  - rewrite Hup in Hup'. injection Hup' as <-.
    rewrite Hjson in Hjson'. injection Hjson' as <-.
    destruct Hthrows as [(m & Hm) | (m & Hm)]; congruence.
Qed.


End UpstreamAnswers.

End Outcomes.

(** ** The theorems at concrete requests *)

Module Witnesses.
Import JS Weather Samples WeatherFacts.

Ltac concrete := vm_compute; first [reflexivity | discriminate | tauto].


Lemma missing_key_is_500_witness :
  (httpMethod london = "GET" /\ valid_city london " London "
   /\ (WEATHER_API_KEY no_key = None \/ WEATHER_API_KEY no_key = Some ""))
  /\ invoke upstream_ok no_key london
     = ({| statusCode := HttpStatus 500;
           headers := cors_headers;
           body := JSON_stringify
                     (JObject [("error", JString "Server configuration error: API key not set.")]) |},
        [Logged ["WEATHER_API_KEY environment variable is not set."]]).
Proof.
  assert (valid_city london " London ") as Hcity by (split; concrete).
  split; [repeat split; solve [reflexivity | apply Hcity | left; reflexivity] |].
  apply (missing_key_is_500 upstream_ok no_key london " London " eq_refl Hcity).
  left. reflexivity.
Defined.

Lemma blank_city_is_400_witness :
  (httpMethod blank = "GET" /\ trim "   " = "")
  /\ invoke upstream_ok with_key blank
     = ({| statusCode := HttpStatus 400; headers := cors_headers;
           body := JSON_stringify
                     (JObject [("error", JString "Missing required query parameter: city");
                               ("example", JString "/.netlify/functions/weather?city=Boston")]) |},
        [])
  /\ JSON_parse (body (fst (invoke upstream_ok with_key blank)))
     = Some (JObject [("error", JString "Missing required query parameter: city");
                      ("example", JString "/.netlify/functions/weather?city=Boston")]).
Proof.
  split; [split; reflexivity |].
  apply (blank_city_is_400 upstream_ok with_key blank eq_refl).
  right. vm_compute. reflexivity.
Defined.

Lemma transport_failure_is_500_witness :
  (httpMethod london = "GET" /\ valid_city london " London "
   /\ key_set with_key "0123abcd"
   /\ upstream_down (weatherUrl "0123abcd" " London ") = Throw "fetch failed")
  /\ invoke upstream_down with_key london
     = ({| statusCode := HttpStatus 500; headers := cors_headers;
           body := JSON_stringify
                     (JObject [("error", JString "Failed to fetch weather data. Please try again later.");
                               ("detail", JString "fetch failed")]) |},
        [Fetched (weatherUrl "0123abcd" " London ");
         Logged ["Unexpected error fetching weather data:"; "fetch failed"]])
  /\ JSON_parse (body (fst (invoke upstream_down with_key london)))
     = Some (JObject [("error", JString "Failed to fetch weather data. Please try again later.");
                      ("detail", JString "fetch failed")]).
Proof.
  assert (valid_city london " London ") as Hcity by (split; concrete).
  assert (key_set with_key "0123abcd") as Hkey by (split; concrete).
  split; [repeat split; solve [reflexivity | apply Hcity | apply Hkey] |].
  apply (transport_failure_is_500 upstream_down with_key london " London "
           "0123abcd" eq_refl Hcity Hkey "fetch failed").
  left. reflexivity.
Defined.


Lemma upstream_url_shape_witness :
  (httpMethod london = "GET" /\ valid_city london " London "
   /\ key_set with_key "0123abcd")
  /\ fetched_urls (snd (invoke upstream_ok with_key london))
     = ["https://api.weatherapi.com/v1/forecast.json?key=0123abcd&q=London&days=7&aqi=yes"].
Proof.
  assert (valid_city london " London ") as Hcity by (split; concrete).
  assert (key_set with_key "0123abcd") as Hkey by (split; concrete).
  split; [repeat split; solve [reflexivity | apply Hcity | apply Hkey] |].
  apply (upstream_url_shape upstream_ok with_key london " London " "0123abcd"
           eq_refl Hcity Hkey).
Defined.

Lemma only_the_status_selects_translation_witness :
  (httpMethod london = "GET" /\ valid_city london " London "
   /\ key_set with_key "0123abcd"
   /\ upstream_error_200 (weatherUrl "0123abcd" " London ")
      = Normal {| status_of := 200; json := Normal not_found |}
   /\ ok {| status_of := 200; json := Normal not_found |} = true)
  /\ fst (invoke upstream_error_200 with_key london)
     = {| statusCode := HttpStatus 200; headers := cors_headers;
          body := JSON_stringify not_found |}.
Proof.
  assert (valid_city london " London ") as Hcity by (split; concrete).
  assert (key_set with_key "0123abcd") as Hkey by (split; concrete).
  split; [repeat split; solve [reflexivity | apply Hcity | apply Hkey] |].
  apply (only_the_status_selects_translation upstream_error_200 with_key london
           " London " "0123abcd" eq_refl Hcity Hkey
           {| status_of := 200; json := Normal not_found |} not_found
           eq_refl eq_refl).
  reflexivity.
Defined.


End Witnesses.

(** ** The theorems on every branch at concrete requests *)

Module OutcomeWitnesses.
Import JS Weather Samples WeatherFacts Outcomes.

Ltac concrete := vm_compute; first [reflexivity | discriminate | tauto].

Lemma other_methods_are_405_witness :
  (httpMethod post <> "OPTIONS" /\ httpMethod post <> "GET")
  /\ invoke upstream_ok no_key post
     = ({| statusCode := HttpStatus 405; headers := cors_headers;
           body := JSON_stringify
                     (JObject [("error", JString "Method not allowed. Use GET.")]) |}, [])
  /\ JSON_parse (body (fst (invoke upstream_ok no_key post)))
     = Some (JObject [("error", JString "Method not allowed. Use GET.")]).
Proof.
  split; [split; discriminate |].
  apply (other_methods_are_405 upstream_ok no_key post); discriminate.
Defined.

Lemma only_method_and_trimmed_city_matter_witness :
  (httpMethod london = httpMethod london_plain
   /\ option_map trim (city_of london) = option_map trim (city_of london_plain))
  /\ invoke upstream_400 with_key london = invoke upstream_400 with_key london_plain.
Proof.
  split; [split; concrete |].
  apply (only_method_and_trimmed_city_matter upstream_400 with_key london london_plain);
    concrete.
Defined.

Lemma fetches_only_the_forecast_endpoint_witness :
  In (weatherUrl "0123abcd" "London")
     (fetched_urls (snd (invoke upstream_ok with_key london_plain)))
  /\ fetched_urls (snd (invoke upstream_ok with_key london_plain))
     = [weatherUrl "0123abcd" "London"]
  /\ httpMethod london_plain = "GET"
  /\ (exists city key,
        valid_city london_plain city /\ key_set with_key key
        /\ weatherUrl "0123abcd" "London" = weatherUrl key city)
  /\ starts_with (bytes endpoint) (bytes (weatherUrl "0123abcd" "London")) = true.
Proof.
  assert (In (weatherUrl "0123abcd" "London")
             (fetched_urls (snd (invoke upstream_ok with_key london_plain)))) as Hin
    by (left; concrete).
  split; [exact Hin |].
  exact (fetches_only_the_forecast_endpoint upstream_ok with_key london_plain
           (weatherUrl "0123abcd" "London") Hin).
Defined.

Lemma upstream_status_matters_through_ok_only_witness :
  (ok {| status_of := 400; json := Normal not_found |}
   = ok {| status_of := 404; json := Normal not_found |})
  /\ invoke upstream_400 with_key london = invoke upstream_404 with_key london.
Proof.
  split; [reflexivity |].
  apply (upstream_status_matters_through_ok_only upstream_400 upstream_404 with_key london).
  intros url. split; reflexivity.
Defined.


Lemma upstream_error_is_translated_witness :
  (httpMethod london = "GET" /\ valid_city london " London "
   /\ key_set with_key "0123abcd"
   /\ upstream_400 (weatherUrl "0123abcd" " London ")
      = Normal {| status_of := 400; json := Normal not_found |}
   /\ ToString (errorCode_of not_found) = Normal "1006"
   /\ ToString (errorMessage_of not_found) = Normal "No matching location found."
   /\ ~ In "1006" Object_prototype)
  /\ exists status,
       invoke upstream_400 with_key london
       = ({| statusCode := HttpStatus status; headers := cors_headers;
             body := JSON_stringify
                       (JObject [("error", errorMessage_of not_found);
                                 ("code", errorCode_of not_found)]) |},
          [Fetched (weatherUrl "0123abcd" " London ");
           Logged ["WeatherAPI error [" +:+ "1006" +:+ "]: "
                   +:+ "No matching location found."]])
       /\ ("1006" = "1006" -> status = 404)
       /\ ("1006" = "2006" -> status = 401)
       /\ ("1006" = "2007" -> status = 403)
       /\ ("1006" = "2008" -> status = 403)
       /\ ("1006" = "9000" -> status = 400)
       /\ ("1006" = "9001" -> status = 400)
       /\ (~ In "1006" ["1006"; "2006"; "2007"; "2008"; "9000"; "9001"] ->
           status = 502).
Proof.
  assert (valid_city london " London ") as Hcity by (split; concrete).
  assert (key_set with_key "0123abcd") as Hkey by (split; concrete).
  assert (~ In "1006" Object_prototype) as Hproto
    by (simpl; intros H; decompose [or] H; try discriminate; tauto).
  split; [repeat split; solve [reflexivity | apply Hcity | apply Hkey | exact Hproto] |].
  exact (upstream_error_is_translated upstream_400 with_key london " London " "0123abcd"
           eq_refl Hcity Hkey
           {| status_of := 400; json := Normal not_found |} not_found
           "1006" "No matching location found."
           eq_refl eq_refl eq_refl eq_refl eq_refl Hproto).
Defined.

Lemma inherited_member_name_is_found_witness :
  (httpMethod london = "GET" /\ valid_city london " London "
   /\ key_set with_key "0123abcd"
   /\ upstream_constructor (weatherUrl "0123abcd" " London ")
      = Normal {| status_of := 400; json := Normal named_constructor |}
   /\ ToString (errorCode_of named_constructor) = Normal "constructor"
   /\ ToString (errorMessage_of named_constructor) = Normal "No such code."
   /\ In "constructor" Object_prototype)
  /\ invoke upstream_constructor with_key london
     = ({| statusCode := PrototypeMember "constructor"; headers := cors_headers;
           body := JSON_stringify
                     (JObject [("error", errorMessage_of named_constructor);
                               ("code", errorCode_of named_constructor)]) |},
        [Fetched (weatherUrl "0123abcd" " London ");
         Logged ["WeatherAPI error [" +:+ "constructor" +:+ "]: " +:+ "No such code."]]).
Proof.
  assert (valid_city london " London ") as Hcity by (split; concrete).
  assert (key_set with_key "0123abcd") as Hkey by (split; concrete).
  assert (In "constructor" Object_prototype) as Hproto by (left; reflexivity).
  split; [repeat split; solve [reflexivity | apply Hcity | apply Hkey | exact Hproto] |].
  exact (inherited_member_name_is_found upstream_constructor with_key london " London "
           "0123abcd" eq_refl Hcity Hkey
           {| status_of := 400; json := Normal named_constructor |} named_constructor
           "constructor" "No such code."
           eq_refl eq_refl eq_refl eq_refl eq_refl Hproto).
Defined.


Lemma missing_error_details_default_witness :
  (httpMethod london = "GET" /\ valid_city london " London "
   /\ key_set with_key "0123abcd"
   /\ upstream_503 (weatherUrl "0123abcd" " London ")
      = Normal {| status_of := 503; json := Normal unavailable |}
   /\ optional_get (optional_get (Some unavailable) "error") "code" = None
   /\ optional_get (optional_get (Some unavailable) "error") "message" = None)
  /\ invoke upstream_503 with_key london
     = ({| statusCode := HttpStatus 502; headers := cors_headers;
           body := JSON_stringify
                     (JObject [("error", JString "Unknown error from WeatherAPI.");
                               ("code", JString "unknown")]) |},
        [Fetched (weatherUrl "0123abcd" " London ");
         Logged ["WeatherAPI error [unknown]: Unknown error from WeatherAPI."]]).
Proof.
  assert (valid_city london " London ") as Hcity by (split; concrete).
  assert (key_set with_key "0123abcd") as Hkey by (split; concrete).
  split; [repeat split; solve [reflexivity | apply Hcity | apply Hkey] |].
  apply (missing_error_details_default upstream_503 with_key london " London " "0123abcd"
           eq_refl Hcity Hkey
           {| status_of := 503; json := Normal unavailable |} unavailable
           eq_refl eq_refl eq_refl);
    intros v; discriminate.
Defined.

Lemma unconvertible_error_is_500_witness :
  (httpMethod london = "GET" /\ valid_city london " London "
   /\ key_set with_key "0123abcd"
   /\ upstream_odd (weatherUrl "0123abcd" " London ")
      = Normal {| status_of := 400; json := Normal odd_message |}
   /\ ToString (errorMessage_of odd_message)
      = Throw "Cannot convert object to primitive value")
  /\ invoke upstream_odd with_key london
     = ({| statusCode := HttpStatus 500; headers := cors_headers;
           body := JSON_stringify
                     (JObject
                        [("error", JString "Failed to fetch weather data. Please try again later.");
                         ("detail", JString "Cannot convert object to primitive value")]) |},
        [Fetched (weatherUrl "0123abcd" " London ");
         Logged ["Unexpected error fetching weather data:";
                 "Cannot convert object to primitive value"]]).
Proof.
  assert (valid_city london " London ") as Hcity by (split; concrete).
  assert (key_set with_key "0123abcd") as Hkey by (split; concrete).
  split; [repeat split; solve [reflexivity | apply Hcity | apply Hkey] |].
  apply (unconvertible_error_is_500 upstream_odd with_key london " London " "0123abcd"
           eq_refl Hcity Hkey
           {| status_of := 400; json := Normal odd_message |} odd_message
           eq_refl eq_refl eq_refl).
  right. exists "Cannot convert object to primitive value". reflexivity.
Defined.


End OutcomeWitnesses.

(** ** The behaviours listed in the specification, evaluated *)

Module Tests.
Import JS Weather Samples.

Example trim_strips_both_ends : trim "  New York " = "New York".
Proof. reflexivity. Qed.

Example encode_reserved :
  encodeURIComponent "a&b=c/d?e#f" = "a%26b%3Dc%2Fd%3Fe%23f".
Proof. reflexivity. Qed.

Example numerals :
  map (fun text => Number_toString (decimal text))
      ["1006"; "12.50"; "-0.000125e2"; "1E3"; "100e-2"; "1e21"; "1e20"; "0.0";
       "-0"; "51.52"; "-1.5e-7"; "0.000001"; "123456789012345000"]
  = ["1006"; "12.5"; "-0.0125"; "1000"; "1"; "1e+21"; "100000000000000000000"; "0";
     "0"; "51.52"; "-1.5e-7"; "0.000001"; "123456789012345000"].
Proof. vm_compute. reflexivity. Qed.

Example not_numerals :
  map (fun text => parse_number (bytes text))
      ["01"; "1."; "1e"; ".5"; "-"; "+1"; "1234567890123456"; "1e400"]
  = [None; None; None; None; None; None; None; None].
Proof. vm_compute. reflexivity. Qed.

Example to_string_of_array : ToString (JArray [JNumber (integer 1006)]) = Normal "1006".
Proof. reflexivity. Qed.

Example to_string_of_mixed_array :
  ToString (JArray [JNumber (integer 1); JNull; JObject []]) = Normal "1,,[object Object]".
Proof. reflexivity. Qed.

Example to_string_throws :
  ToString (JObject [("toString", JNumber (integer 1))]) = Throw TypeError_primitive.
Proof. reflexivity. Qed.

Example stringify_text :
  bytes (JSON_stringify (JObject [("a", JArray [JNull; JBool true; JNumber (integer (-5))])]))
  = ["{"; "034"; "a"; "034"; ":"; "["; "n"; "u"; "l"; "l"; ","; "t"; "r"; "u"; "e";
     ","; "-"; "5"; "]"; "}"]%char.
Proof. reflexivity. Qed.

Example parse_orders_and_replaces :
  JSON_parse (JSON_stringify
                (JObject [("b", JArray [JNumber (integer 1); JNumber (integer (-20))]); ("2", JNull);
                          ("1", JBool true); ("b", JBool false)]))
  = Some (JObject [("1", JBool true); ("2", JNull); ("b", JBool false)]).
Proof. vm_compute. reflexivity. Qed.

Example parse_rejects_leading_zero : JSON_parse "[01]" = None.
Proof. vm_compute. reflexivity. Qed.

Example parse_skips_white_space :
  JSON_parse " [ 1 , [ ] , { } ] " = Some (JArray [JNumber (integer 1); JArray []; JObject []]).
Proof. vm_compute. reflexivity. Qed.

Example method_not_allowed :
  invoke upstream_ok with_key
         {| httpMethod := "POST"; queryStringParameters := None |}
  = ({| statusCode := HttpStatus 405; headers := cors_headers;
        body := JSON_stringify (JObject [("error", JString "Method not allowed. Use GET.")]) |},
     []).
Proof. reflexivity. Qed.

Example not_found_is_404 :
  invoke upstream_400 with_key london
  = ({| statusCode := HttpStatus 404; headers := cors_headers;
        body := JSON_stringify
                  (JObject [("error", JString "No matching location found.");
                            ("code", JNumber (integer 1006))]) |},
     [Fetched "https://api.weatherapi.com/v1/forecast.json?key=0123abcd&q=London&days=7&aqi=yes";
      Logged ["WeatherAPI error [1006]: No matching location found."]]).
Proof. vm_compute. reflexivity. Qed.

Example unknown_code_is_502 :
  statusCode (fst (invoke upstream_9999 with_key london)) = HttpStatus 502.
Proof. vm_compute. reflexivity. Qed.

Example numeral_string_is_looked_up :
  default (HttpStatus 502)
    (statusMap_get match ToPropertyKey (JString "1006") with
                   | Normal key => key
                   | Throw _ => ""
                   end)
  = HttpStatus 404.
Proof. reflexivity. Qed.

Example message_that_cannot_be_converted :
  statusCode
    (fst (invoke
            (fun _ =>
               Normal {| status_of := 400;
                         json := Normal
                                   (JObject
                                      [("error",
                                        JObject [("code", JNumber (integer 1006));
                                                 ("message",
                                                  JObject [("toString", JNull)])])]) |})
            with_key london))
  = HttpStatus 500.
Proof. vm_compute. reflexivity. Qed.

End Tests.
